(** * The asset installer install_linux.py and its KeyValues parser

    A shallow embedding of [install_linux.py]: the [KeyValues] class
    (the line scanner [__parse], its two regular expressions and the
    ordered dictionary it fills) and the functions around it
    ([locate_steam_dir], [locate_tf2_dir], [copy_asset_pack_files] and
    [main]), with their properties stated and proved over it.

    Characters are modelled as [ascii] (code points 0..255), a line as a
    [string], the line buffer as a [list string].  [parse] starts from
    the list of lines that [__parse] receives; reading the file and
    stripping its lines is [parse_text].  The file system, the process
    list and the working directory are parameters of the functions that
    use them. *)

From Stdlib Require Import String Ascii List Bool Arith Lia.
Import ListNotations.

Local Set Warnings "-register-all".
Local Open Scope list_scope.
Local Open Scope string_scope.

(** ** Characters of the two patterns *)

Module Chars.

(** The double quote, written by its code so that no literal has to
    escape it. *)
Definition DQ : ascii := "034"%char.
Definition SQ : ascii := "'"%char.
Definition NL : ascii := "010"%char.

(** The class of the two quote characters, written [Q] below. *)
Definition is_quote (c : ascii) : bool :=
  ((c =? SQ) || (c =? DQ))%char.

(** [.] without DOTALL: every character except the line feed. *)
Definition is_dot (c : ascii) : bool := negb (c =? NL)%char.

(** [\s] of a str pattern on code points below 256: the characters for
    which [str.isspace] holds. *)
Definition is_space (c : ascii) : bool :=
  let n := nat_of_ascii c in
  (((9 <=? n) && (n <=? 13)) || ((28 <=? n) && (n <=? 32))
   || (n =? 133) || (n =? 160))%nat.

End Chars.
Import Chars.

(** ** The regular expressions [__regexs]

    Both patterns are run by a backtracking matcher written in
    continuation-passing style: a piece of the pattern receives the rest
    of the subject and the continuation for the rest of the pattern, and
    tries its alternatives in the order of Python's [re] engine (greedy
    first).  The flag [re.I] of both patterns changes nothing: the only
    literal characters and back references are quotes, which have no
    case. *)

Module Regex.

Section Pieces.
Context {R : Type}.

(** [((?!\1).)*] with [\1 = q]: greedy, giving back one character at
    a time.  The continuation receives the captured text and the rest
    of the subject. *)
Fixpoint star_not_ref (q : ascii) (s : string)
         (k : string -> string -> option R) : option R :=
  match s with
  | String c s' =>
      if negb (c =? q)%char && is_dot c then
        match star_not_ref q s' (fun cap rest => k (String c cap) rest) with
        | Some r => Some r
        | None => k EmptyString s
        end
      else k EmptyString s
  | EmptyString => k EmptyString s
  end.

(** [\1] with [\1 = q]. *)
Definition backref (q : ascii) (s : string) (k : string -> option R)
  : option R :=
  match s with
  | String c s' => if (c =? q)%char then k s' else None
  | EmptyString => None
  end.

(** [\s+], greedy. *)
Fixpoint spaces_plus (s : string) (k : string -> option R) : option R :=
  match s with
  | String c s' =>
      if is_space c then
        match spaces_plus s' k with
        | Some r => Some r
        | None => k s'
        end
      else None
  | EmptyString => None
  end.

(** [(\s+|)] *)
Definition spaces_alt (s : string) (k : string -> option R) : option R :=
  match spaces_plus s k with
  | Some r => Some r
  | None => k s
  end.

(** [Q], the class of the two quote characters. *)
Definition any_quote (s : string) (k : string -> option R) : option R :=
  match s with
  | String c s' => if is_quote c then k s' else None
  | EmptyString => None
  end.

(** [(?!.)] *)
Definition not_followed_by_dot (s : string) (k : string -> option R)
  : option R :=
  match s with
  | String c _ => if is_dot c then None else k s
  | EmptyString => k s
  end.

End Pieces.

(** The pattern [key] of [__regexs]:
    [(Q) (?P<key> ((?!\1).)* ) \1 (?!.)] (spaced out as under re.X),
    matched at the start of the subject; the result is the group
    [key]. *)
Definition match_key (s : string) : option string :=
  match s with
  | String q s1 =>
      if is_quote q then
        star_not_ref q s1 (fun key s2 =>
          backref q s2 (fun s3 =>
            not_followed_by_dot s3 (fun _ => Some key)))
      else None
  | EmptyString => None
  end.

(** The pattern [key_value] of [__regexs]:
    [(Q) (?P<key> ((?!\1).)* ) \1 (\s+|) Q (?P<value> ((?!\1).)* ) \1]
    (spaced out as under re.X), matched at the start of the subject; the
    result is the pair of the groups [key] and [value]. *)
Definition match_key_value (s : string) : option (string * string) :=
  match s with
  | String q s1 =>
      if is_quote q then
        star_not_ref q s1 (fun key s2 =>
          backref q s2 (fun s3 =>
            spaces_alt s3 (fun s4 =>
              any_quote s4 (fun s5 =>
                star_not_ref q s5 (fun value s6 =>
                  backref q s6 (fun _ => Some (key, value)))))))
      else None
  | EmptyString => None
  end.

(** [re.search]: the first position of the subject at which the
    pattern matches. *)
Fixpoint search {R : Type} (m : string -> option R) (s : string)
  : option R :=
  match m s with
  | Some r => Some r
  | None =>
      match s with
      | String _ s' => search m s'
      | EmptyString => None
      end
  end.

End Regex.
Import Regex.

(** ** The tree *)

(** A value stored in a mapper is a string or a nested mapper; a mapper
    is a [collections.OrderedDict], kept as the list of its items in
    insertion order. *)
Inductive Node : Type :=
| Scalar (s : string)
| Mapping (items : list (string * Node)).

Definition mapper : Type := list (string * Node).

(** [_mapper[k] = v] on an [OrderedDict]: an existing key keeps its
    place and gets the new value, a new key goes to the end. *)
Fixpoint setitem (m : mapper) (k : string) (v : Node) : mapper :=
  match m with
  | [] => [(k, v)]
  | (k', v') :: m' =>
      if String.eqb k' k then (k', v) :: m'
      else (k', v') :: setitem m' k v
  end.

(** [_mapper[k]]; [None] stands for [KeyError]. *)
Fixpoint getitem (m : mapper) (k : string) : option Node :=
  match m with
  | [] => None
  | (k', v') :: m' => if String.eqb k' k then Some v' else getitem m' k
  end.

Definition keys (m : mapper) : list string := map fst m.

(** ** Exceptions and results of [__parse] *)

(** The exceptions that can leave [__parse]:
    - [StructuralError n]: the [Exception] raised for an opening brace
      found without key at line [n];
    - [ValueError]: unpacking a mapper that has not exactly two keys
      into [_mapper[key], i];
    - [TypeError]: the test [i < len(lines)] with a string for [i];
    - [AttributeError]: [.group] on the [None] of a failed
      [re.search]. *)
Inductive PyError : Type :=
| StructuralError (line : nat)
| ValueError
| TypeError
| AttributeError.

(** What a call of [__parse] does: [return _mapper],
    [return _mapper, i + 1], or an exception that leaves the call.
    [OutOfFuel] belongs to the model only and is never the result of a
    run ([loop_total]). *)
Inductive Outcome : Type :=
| RetMapper (m : mapper)
| RetTuple (m : mapper) (i : nat)
| Raise (e : PyError)
| OutOfFuel.

(** ** [KeyValues] *)

Module KeyValues.

(** [str.startswith] *)
Definition startswith (p s : string) : bool := String.prefix p s.

(** [key = False] is [None]; [not key] also holds for the empty
    string. *)
Definition falsy (key : option string) : bool :=
  match key with
  | None => true
  | Some k => String.eqb k EmptyString
  end.

(** [__key_modifier]: the modifier when there is one, the key itself
    otherwise. *)
Definition __key_modifier (key : string)
           (key_modifier : option (string -> string)) : string :=
  match key_modifier with
  | Some f => f key
  | None => key
  end.

(** [_mapper[key], i = r] when the nested call returned a bare mapper
    [r]: the mapper is iterated over its keys, which fails unless there
    are exactly two, and then leaves a string in [i], on which the next
    test of the loop fails. *)
Definition unpack_error (sub : mapper) : PyError :=
  if (length sub =? 2)%nat then TypeError else ValueError.

Section Loop.

Variable key_modifier : option (string -> string).
Variable lines : list string.

(** One pass through the body of the [while] loop of [__parse], in the
    state [i], [key], [_mapper] of the running call.  [call j] is the
    nested [self.__parse(lines, i=j, ...)], [again] the rest of the loop
    from the state it is given.  A cursor at or past the end leaves the
    loop, and so does the [IndexError] of [lines[i+1]]; both reach the
    final [return _mapper]. *)
Definition iteration (call : nat -> Outcome)
           (again : nat -> option string -> mapper -> Outcome)
           (i : nat) (key : option string) (_mapper : mapper) : Outcome :=
  match nth_error lines i with
  | None => RetMapper _mapper
  | Some line =>
      if startswith "{" line then
        match key with
        | None => Raise (StructuralError (i + 1))
        | Some k =>
            if String.eqb k EmptyString then Raise (StructuralError (i + 1))
            else
              match call (i + 1) with
              | RetTuple sub j => again j key (setitem _mapper k (Mapping sub))
              | RetMapper sub => Raise (unpack_error sub)
              | Raise e => Raise e
              | OutOfFuel => OutOfFuel
              end
        end
      else if startswith "}" line then RetTuple _mapper (i + 1)
      else
        match match_key line with
        | Some _ =>
            match search match_key line with
            | Some k =>
                again (i + 1) (Some (__key_modifier k key_modifier)) _mapper
            | None => Raise AttributeError
            end
        | None =>
            match match_key_value line with
            | Some _ =>
                match search match_key_value line with
                | Some (k, v) =>
                    again (i + 1) key
                      (setitem _mapper (__key_modifier k key_modifier)
                               (Scalar v))
                | None => Raise AttributeError
                end
            | None =>
                match nth_error lines (i + 1) with
                | None => RetMapper _mapper
                | Some following =>
                    match match_key_value (line ++ following) with
                    | Some _ =>
                        match search match_key_value
                                     (line ++ " " ++ following) with
                        | Some (k, v) =>
                            again (i + 1) key
                              (setitem _mapper (__key_modifier k key_modifier)
                                       (Scalar v))
                        | None => Raise AttributeError
                        end
                    | None => again (i + 1) key _mapper
                    end
                end
            end
        end
  end.

(** The loop, one iteration per unit of fuel; a nested call starts with
    [key = False] and an empty mapper. *)
Fixpoint parse_loop (fuel : nat) (i : nat) (key : option string)
         (_mapper : mapper) : Outcome :=
  match fuel with
  | O => OutOfFuel
  | S fuel' =>
      iteration (fun j => parse_loop fuel' j None []) (parse_loop fuel')
                i key _mapper
  end.

(** The loop run from a state to its end: no run needs more iterations
    than there are lines left, plus the one that sees the end of the
    input ([loop_unfold] below). *)
Definition loop (i : nat) (key : option string) (_mapper : mapper)
  : Outcome :=
  parse_loop (S (length lines - i)) i key _mapper.

(** [__parse(lines, mapper_type, i, key_modifier)] *)
Definition __parse (i : nat) : Outcome := loop i None [].

End Loop.

(** [parse] on the lines of the file, already stripped; the instance is
    built without a key modifier. *)
Definition parse (lines : list string) : Outcome :=
  __parse None lines 0.

End KeyValues.
Import KeyValues.

(** ** Test inputs *)

(** A token: [s] between two quotes [q]. *)
Definition quoted (q : ascii) (s : string) : string :=
  String q (s ++ String q EmptyString).

Definition dq (s : string) : string := quoted DQ s.
Definition sq (s : string) : string := quoted SQ s.

(** A pair whose value is broken over two lines inside a block, the
    second line starting with a closing brace. *)
Definition broken_value_lines : list string :=
  [dq "a"; "{"; dq "k" ++ " " ++ String DQ "v";
   String "}" (String DQ EmptyString); dq "x" ++ " " ++ dq "y"].

(** A line of two tokens: a key between quotes [q], white space [ws],
    and a value opened by the quote [q2] and closed by [q]. *)
Definition two_tokens (q : ascii) (k ws : string) (q2 : ascii) (v : string)
  : string :=
  String q (k ++ String q (ws ++ String q2 (v ++ String q EmptyString))).

(** A key and a value that each carry their own quotes. *)
Definition own_quotes (q : ascii) (k ws : string) (q2 : ascii) (v : string)
  : string :=
  String q (k ++ String q (ws ++ String q2 (v ++ String q2 EmptyString))).

(** ** Predicates on text *)

(** No character of [s] is [q]. *)
Fixpoint lacks (q : ascii) (s : string) : bool :=
  match s with
  | EmptyString => true
  | String c s' => negb (c =? q)%char && lacks q s'
  end.

(** No character of [s] is a line feed, as in every line that
    [readlines] and [strip] hand to [__parse]. *)
Fixpoint no_newline (s : string) : bool :=
  match s with
  | EmptyString => true
  | String c s' => is_dot c && no_newline s'
  end.

(** [s] can stand between two quotes [q]. *)
Definition free_of (q : ascii) (s : string) : bool :=
  lacks q s && no_newline s.

(** Every character of [s] is white space. *)
Fixpoint all_space (s : string) : bool :=
  match s with
  | EmptyString => true
  | String c s' => is_space c && all_space s'
  end.

(** ** Predicates on trees *)


(** ** Predicates on lines and results *)

(** A line that is neither a brace nor a lone token: it cannot open or
    close a block, nor set the pending key. *)
Definition inert (line : string) : bool :=
  negb (startswith "{" line) && negb (startswith "}" line) &&
  match match_key line with Some _ => false | None => true end.

(** [m'] is [m], or [m] after one scalar was bound. *)
Definition grown (m m' : mapper) : Prop :=
  m' = m \/ exists k v, m' = setitem m k (Scalar v).

(** What a call returns, when it returns. *)
Definition returned (P : mapper -> Prop) (o : Outcome) : Prop :=
  match o with
  | RetMapper m | RetTuple m _ => P m
  | Raise _ | OutOfFuel => True
  end.

(** ** Further predicates on trees *)

(** Every key of every mapper in the tree satisfies [P]. *)
Fixpoint all_keys (P : string -> Prop) (n : Node) : Prop :=
  match n with
  | Scalar _ => True
  | Mapping items =>
      (fix each (l : list (string * Node)) : Prop :=
         match l with
         | [] => True
         | (k, v) :: l' => P k /\ all_keys P v /\ each l'
         end) items
  end.

(** Every value of the mapper is a string. *)
Definition flat (m : mapper) : Prop :=
  Forall (fun kv => exists s, snd kv = Scalar s) m.

(** ** The object and its callers *)

(** The exceptions of the functions around the parser: those of
    [__parse], and
    - [KeyError k]: a subscript with a key [k] that the mapper lacks;
    - [OSError]: a file that cannot be opened;
    - [ZeroDivisionError]: a division by a total size of zero;
    - [IndexError]: an index past the end of a list. *)
Inductive Exc : Type :=
| Py (e : PyError)
| KeyError (key : string)
| OSError
| ZeroDivisionError
| IndexError.

(** The result of a function that returns or raises.  [Stuck] belongs
    to the model only: it stands for the [OutOfFuel] of [parse_loop],
    which no run reaches. *)
Inductive Res (A : Type) : Type :=
| Ok (a : A)
| Err (e : Exc)
| Stuck.

Arguments Ok {A} a.
Arguments Err {A} e.
Arguments Stuck {A}.

(** The attribute [__mapper] of a [KeyValues] object: what [__parse]
    returned to [parse], a mapper or a pair of a mapper and a cursor. *)
Inductive Stored : Type :=
| StoredMapper (m : mapper)
| StoredTuple (m : mapper) (i : nat).

(** [__getitem__]: [self.__mapper[key]].  A mapper raises [KeyError] for
    a key it lacks; a tuple cannot be indexed by a string. *)
Definition __getitem__ (self : Stored) (key : string) : Res Node :=
  match self with
  | StoredMapper m =>
      match getitem m key with
      | Some v => Ok v
      | None => Err (KeyError key)
      end
  | StoredTuple _ _ => Err (Py TypeError)
  end.

(** ** Files of one-line pairs *)

(** The line of a pair: key and value between double quotes, one space
    between them. *)
Definition pair_line (kv : string * string) : string :=
  two_tokens DQ (fst kv) " " DQ (snd kv).

(** The pairs bound one after the other. *)
Definition bind_all (pairs : list (string * string)) (m : mapper) : mapper :=
  fold_left (fun m kv => setitem m (fst kv) (Scalar (snd kv))) pairs m.

(** The value of the last pair with key [k]. *)
Fixpoint last_value (pairs : list (string * string)) (k : string)
  : option string :=
  match pairs with
  | [] => None
  | (k', v) :: rest =>
      match last_value rest k with
      | Some v' => Some v'
      | None => if String.eqb k' k then Some v else None
      end
  end.

(** ** Reading the file *)

Definition CR : ascii := "013"%char.

(** [str.lstrip], [str.rstrip] and [str.strip] without argument: white
    space goes from the start, from the end, from both. *)
Fixpoint lstrip (s : string) : string :=
  match s with
  | String c s' => if is_space c then lstrip s' else s
  | EmptyString => EmptyString
  end.

Fixpoint rstrip (s : string) : string :=
  match s with
  | EmptyString => EmptyString
  | String c s' =>
      match rstrip s' with
      | EmptyString =>
          if is_space c then EmptyString else String c EmptyString
      | r => String c r
      end
  end.

Definition strip (s : string) : string := rstrip (lstrip s).

(** [f.readlines()] on a file opened in text mode, from its decoded
    text: a line ends after a line feed, after a carriage return, or
    after the two in a row, and each of these line ends is handed over
    as one line feed; a last line may lack it. *)
Fixpoint readlines (s : string) : list string :=
  match s with
  | EmptyString => []
  | String c s' =>
      if (c =? NL)%char then String NL EmptyString :: readlines s'
      else if (c =? CR)%char then
        match s' with
        | String d _ =>
            if (d =? NL)%char then readlines s'
            else String NL EmptyString :: readlines s'
        | EmptyString => String NL EmptyString :: readlines s'
        end
      else
        match readlines s' with
        | [] => [String c EmptyString]
        | l :: ls => String c l :: ls
        end
  end.

(** [[line.strip() for line in f.readlines()]] *)
Definition file_lines (content : string) : list string :=
  map strip (readlines content).

(** The body of [parse(filename)] once the file is open: the result of
    [__parse] on the stripped lines, which becomes [self.__mapper]. *)
Definition parse_text (content : string) : Outcome :=
  parse (file_lines content).

Definition store (o : Outcome) : Res Stored :=
  match o with
  | RetMapper m => Ok (StoredMapper m)
  | RetTuple m i => Ok (StoredTuple m i)
  | Raise e => Err (Py e)
  | OutOfFuel => Stuck
  end.

(** [KeyValues(filename=...)]: [__init__] calls [parse(filename)], which
    opens the file and reads its lines.  [open_text] gives the decoded
    text of a file, or nothing when [open] fails; the decoding is taken
    to succeed. *)
Definition KeyValues_init (open_text : string -> option string)
           (filename : string) : Res Stored :=
  match open_text filename with
  | None => Err OSError
  | Some content => store (parse_text content)
  end.

(** No character of [s] is a line feed or a carriage return. *)
Fixpoint no_breaks (s : string) : bool :=
  match s with
  | EmptyString => true
  | String c s' =>
      negb (c =? NL)%char && negb (c =? CR)%char && no_breaks s'
  end.

(** The lines, each followed by the line end [eol]. *)
Fixpoint unlines (eol : string) (ls : list string) : string :=
  match ls with
  | [] => EmptyString
  | l :: ls' => l ++ eol ++ unlines eol ls'
  end.

(** A line between white space [fst (fst t)] and [snd t]. *)
Definition padded (t : string * string * string) : string :=
  fst (fst t) ++ snd (fst t) ++ snd t.

Definition core (t : string * string * string) : string := snd (fst t).

(** Three lines with white space around them. *)
Definition padded_example : list (string * string * string) :=
  [(EmptyString, dq "a", " "); ("  ", "{", EmptyString);
   (String "009" EmptyString, "}", EmptyString)].

(** ** [locate_tf2_dir] *)

(** A function that raises passes its exception on. *)
Definition bind {A B : Type} (r : Res A) (k : A -> Res B) : Res B :=
  match r with
  | Ok a => k a
  | Err e => Err e
  | Stuck => Stuck
  end.

Notation "x <- r ;; k" := (bind r (fun x => k))
  (at level 61, r at next level, right associativity).

(** [str.endswith] *)
Fixpoint endswith (suffix s : string) : bool :=
  String.eqb suffix s ||
  match s with
  | String _ s' => endswith suffix s'
  | EmptyString => false
  end.

(** [sub in s] for two strings *)
Fixpoint contains (sub s : string) : bool :=
  String.prefix sub s ||
  match s with
  | String _ s' => contains sub s'
  | EmptyString => false
  end.

(** One round of the loop of [posixpath.join]: a component that starts
    with the separator replaces the path; after an empty path or one
    that ends with the separator the component is appended as it is;
    otherwise a separator goes between the two. *)
Definition path_join_step (path b : string) : string :=
  if startswith "/" b then b
  else if String.eqb path EmptyString || endswith "/" path then path ++ b
  else path ++ "/" ++ b.

(** [os.path.join(a, *p)] on strings *)
Definition path_join (a : string) (p : list string) : string :=
  fold_left path_join_step p a.

(** [x[key]] for a value of the tree: a string cannot be indexed by a
    string, a mapper raises [KeyError] for a key it lacks. *)
Definition subscript (x : Node) (key : string) : Res Node :=
  match x with
  | Scalar _ => Err (Py TypeError)
  | Mapping m =>
      match getitem m key with
      | Some v => Ok v
      | None => Err (KeyError key)
      end
  end.

(** [key in x]: a key of a mapper, a part of a string. *)
Definition member (key : string) (x : Node) : bool :=
  match x with
  | Scalar s => contains key s
  | Mapping m => existsb (String.eqb key) (keys m)
  end.

(** [root.values()]; a string has no such method. *)
Definition values (root : Node) : Res (list Node) :=
  match root with
  | Scalar _ => Err (Py AttributeError)
  | Mapping m => Ok (map snd m)
  end.

(** [path_join(path, "steamapps", "common", "Team Fortress 2")]; a
    mapper is no path. *)
Definition tf2_folder_of (path : Node) : Res string :=
  match path with
  | Scalar p => Ok (path_join p ["steamapps"; "common"; "Team Fortress 2"])
  | Mapping _ => Err (Py TypeError)
  end.

Section Locate.

(** The file system: the decoded text of a file, [os.path.isdir] and
    [os.path.isfile]. *)
Variable open_text : string -> option string.
Variable isdir : string -> bool.
Variable isfile : string -> bool.

(** The loop of [locate_tf2_dir] over the library folders that are
    left. *)
Fixpoint scan_libraries (xs : list Node) : Res (option string) :=
  match xs with
  | [] => Ok None
  | x :: rest =>
      path <- subscript x "path" ;;
      apps_tree <- subscript x "apps" ;;
      if member "440" apps_tree then
        tf2_folder <- tf2_folder_of path ;;
        if isdir tf2_folder && isfile (tf2_folder ++ "/hl2_linux")
        then Ok (Some tf2_folder)
        else scan_libraries rest
      else scan_libraries rest
  end.

(** [locate_tf2_dir(vdf_file)]; [None] is the [return None] at the
    end.  The message printed with the folder that is found is left to
    [main]. *)
Definition locate_tf2_dir (vdf_file : string) : Res (option string) :=
  kv <- KeyValues_init open_text vdf_file ;;
  root <- __getitem__ kv "libraryfolders" ;;
  xs <- values root ;;
  scan_libraries xs.

End Locate.

(** A library folder that holds the game: a mapper with a string under
    [path] and, under [apps], something that has [440] in it, such that
    the game folder below the path is a directory with the file
    [hl2_linux] in it. *)
Definition holds_tf2 (isdir isfile : string -> bool) (x : Node)
           (folder : string) : Prop :=
  exists p apps,
    subscript x "path" = Ok (Scalar p) /\
    subscript x "apps" = Ok apps /\
    member "440" apps = true /\
    folder = path_join p ["steamapps"; "common"; "Team Fortress 2"] /\
    isdir folder = true /\ isfile (folder ++ "/hl2_linux") = true.

(** The usual layout of [libraryfolders.vdf] with one library folder:
    its label, its path and one installed application. *)
Definition vdf_lines (label path app size : string) : list string :=
  [dq "libraryfolders"; "{";
   dq label; "{";
   pair_line ("path", path);
   dq "apps"; "{";
   pair_line (app, size);
   "}"; "}"; "}"].

(** A file system with one file, of the usual layout. *)
Definition example_vdf : string :=
  unlines (String NL EmptyString) (vdf_lines "0" "/lib" "440" "12").

Definition example_open (f : string) : option string :=
  if String.eqb f "/s/steamapps/libraryfolders.vdf"
  then Some example_vdf else None.

(** ** [copy_asset_pack_files] *)

(** [s.replace(old, new)] with an empty [new]: the occurrences of [old]
    in [s], found from left to right and not overlapping, are taken out;
    an empty [old] leaves [s] as it is.  [skip] counts the characters of
    an occurrence that are still to be dropped. *)
Fixpoint remove_from (old : string) (skip : nat) (s : string) : string :=
  match s with
  | EmptyString => EmptyString
  | String c s' =>
      match skip with
      | S n => remove_from old n s'
      | O =>
          if String.prefix old s
          then remove_from old (String.length old - 1) s'
          else String c (remove_from old 0 s')
      end
  end.

Definition replace_by_nothing (old s : string) : string :=
  if String.eqb old EmptyString then s else remove_from old 0 s.

(** [s.strip(sep)]: separators go from both ends. *)
Definition is_sep (c : ascii) : bool := (c =? "/")%char.

Fixpoint lstrip_sep (s : string) : string :=
  match s with
  | String c s' => if is_sep c then lstrip_sep s' else s
  | EmptyString => EmptyString
  end.

Fixpoint rstrip_sep (s : string) : string :=
  match s with
  | EmptyString => EmptyString
  | String c s' =>
      match rstrip_sep s' with
      | EmptyString =>
          if is_sep c then EmptyString else String c EmptyString
      | r => String c r
      end
  end.

Definition strip_sep (s : string) : string := rstrip_sep (lstrip_sep s).

(** [sorted] on a list of strings: ascending in the order of the code
    points. *)
Fixpoint insert_sorted (x : string) (l : list string) : list string :=
  match l with
  | [] => [x]
  | y :: l' => if String.leb x y then x :: l else y :: insert_sorted x l'
  end.

Definition sorted (l : list string) : list string :=
  fold_right insert_sorted [] l.

(** What the function does to the world, in order.  The two messages
    carry the numbers they are formatted from: the total size, and the
    dividend and the divisor of the percentage. *)
Inductive Event : Type :=
| Makedirs (path : string)
| PrintTotal (copy_size : nat)
| PrintProgress (dividend divisor : nat) (rel_file_path : string)
| Copy2 (src dst : string).

(** The variables of the first loop. *)
Record Gathered : Type := {
  copy_size : nat;
  files_to_copy : list (string * nat);
  done : list Event
}.

Section Copy.

(** The world: [os.getcwd()], the directories and file names that
    [os.walk] yields for a top directory, and [os.path.getsize].  The
    calls that change the file system are taken to succeed. *)
Variable getcwd : string.
Variable walk : string -> list (string * list string).
Variable getsize : string -> nat.

Definition sep : string := "/".

Definition asset_pack_dir : string := getcwd ++ sep ++ "tf".

Definition client_dir (tf2_dir : string) : string := tf2_dir ++ sep ++ "tf".

(** [current_dir.replace(asset_pack_dir, empty).strip(sep)], [empty]
    being the empty string *)
Definition rel_path (current_dir : string) : string :=
  strip_sep (replace_by_nothing asset_pack_dir current_dir).

(** [file.endswith((".nav", ".pop"))] *)
Definition skipped (file : string) : bool :=
  endswith ".nav" file || endswith ".pop" file.

(** The loop over the files of one directory. *)
Fixpoint gather_files (current_dir : string) (files : list string)
         (g : Gathered) : Gathered :=
  match files with
  | [] => g
  | file :: rest =>
      if skipped file then gather_files current_dir rest g
      else
        let size := getsize (current_dir ++ sep ++ file) in
        let rel_file_path := rel_path current_dir ++ sep ++ file in
        gather_files current_dir rest
          {| copy_size := copy_size g + size;
             files_to_copy :=
               (files_to_copy g ++ [(rel_file_path, size)])%list;
             done := done g |}
  end.

(** The loop over what [walk] yields. *)
Fixpoint gather (tf2_dir : string) (w : list (string * list string))
         (g : Gathered) : Gathered :=
  match w with
  | [] => g
  | (current_dir, files_list) :: rest =>
      let target := client_dir tf2_dir ++ sep ++ rel_path current_dir in
      let g1 :=
        {| copy_size := copy_size g;
           files_to_copy := files_to_copy g;
           done := (done g ++ [Makedirs target])%list |} in
      gather tf2_dir rest (gather_files current_dir (sorted files_list) g1)
  end.

(** The loop over [files_to_copy]: the events of the rounds that were
    run, and the exception that ended the loop, if any. *)
Fixpoint copy_files (tf2_dir : string) (copy_size total_copied : nat)
         (files : list (string * nat)) : list Event * option Exc :=
  match files with
  | [] => ([], None)
  | (rel_file_path, size) :: rest =>
      if (copy_size =? 0)%nat then ([], Some ZeroDivisionError)
      else
        let (events, exc) :=
          copy_files tf2_dir copy_size (total_copied + size) rest in
        (PrintProgress (total_copied * 100) copy_size rel_file_path
         :: Copy2 (asset_pack_dir ++ sep ++ rel_file_path)
                  (client_dir tf2_dir ++ sep ++ rel_file_path)
         :: events, exc)
  end.

(** [copy_asset_pack_files(tf2_dir)] *)
Definition copy_asset_pack_files (tf2_dir : string)
  : list Event * option Exc :=
  let g := gather tf2_dir (walk asset_pack_dir)
                  {| copy_size := 0; files_to_copy := []; done := [] |} in
  let (events, exc) :=
    copy_files tf2_dir (copy_size g) 0 (files_to_copy g) in
  ((done g ++ PrintTotal (copy_size g) :: events)%list, exc).

End Copy.

(** The files of one walked directory that are to be copied, as the
    loop over the directory adds them: relative path and size. *)
Definition wanted_files (getcwd : string) (getsize : string -> nat)
           (entry : string * list string) : list (string * nat) :=
  map (fun file =>
         (rel_path getcwd (fst entry) ++ sep ++ file,
          getsize (fst entry ++ sep ++ file)))
      (filter (fun file => negb (skipped file)) (sorted (snd entry))).

(** The events of one round of the second loop. *)
Definition copy_events (getcwd tf2_dir : string) (copy_size : nat)
           (before : nat) (f : string * nat) : list Event :=
  [PrintProgress (before * 100) copy_size (fst f);
   Copy2 (asset_pack_dir getcwd ++ sep ++ fst f)
         (client_dir tf2_dir ++ sep ++ fst f)].

(** The events of the rounds of the second loop, from the size copied
    before them. *)
Fixpoint copy_rounds (getcwd tf2_dir : string) (copy_size before : nat)
         (files : list (string * nat)) : list Event :=
  match files with
  | [] => []
  | f :: rest =>
      (copy_events getcwd tf2_dir copy_size before f
       ++ copy_rounds getcwd tf2_dir copy_size (before + snd f) rest)%list
  end.

(** A walked file that is to be copied. *)
Definition walked (walk : string -> list (string * list string))
           (top current_dir file : string) : Prop :=
  exists files_list,
    In (current_dir, files_list) (walk top) /\ In file files_list /\
    skipped file = false.

(** [rel] is the path of the walked directory [current_dir] relative to
    the asset pack: the directory is the pack itself and [rel] is empty,
    or it is the pack, a separator and [rel], where [rel] has no
    separator at its ends and does not hold the path of the pack
    again. *)
Definition below (getcwd current_dir rel : string) : Prop :=
  (current_dir = asset_pack_dir getcwd /\ rel = EmptyString) \/
  (current_dir = asset_pack_dir getcwd ++ sep ++ rel /\
   strip_sep rel = rel /\
   contains (asset_pack_dir getcwd) (sep ++ rel) = false).

(** A small asset pack: two files at the top, two in a folder of maps;
    every file is as large as its path is long. *)
Definition example_walk (top : string) : list (string * list string) :=
  [(top, ["b.vpk"; "a.nav"]); (top ++ "/maps", ["x.pop"; "x.bsp"])].

Definition example_getsize (path : string) : nat := String.length path.

(** ** [locate_steam_dir] *)

(** [s.split("\n")]: the texts between the line feeds; as many as there
    are line feeds, and one more. *)
Fixpoint split_newline (s : string) : list string :=
  match s with
  | EmptyString => [EmptyString]
  | String c s' =>
      match split_newline s' with
      | l :: ls =>
          if (c =? NL)%char then EmptyString :: l :: ls
          else String c l :: ls
      | [] => []
      end
  end.

(** [s.split()]: the runs of characters that are not white space.
    [field] is the run read so far. *)
Fixpoint split_from (field : string) (s : string) : list string :=
  match s with
  | EmptyString =>
      match field with
      | EmptyString => []
      | _ => [field]
      end
  | String c s' =>
      if is_space c then
        match field with
        | EmptyString => split_from EmptyString s'
        | _ => field :: split_from EmptyString s'
        end
      else split_from (field ++ String c EmptyString) s'
  end.

Definition split (s : string) : list string := split_from EmptyString s.

Definition libraryfolders_path : string := "/steamapps/libraryfolders.vdf".

Section LocateSteam.

(** The world: [str(Path.home())], [os.path.isfile], the decoded output
    of [ps -aux | grep steam.sh], which is taken to run, and
    [str(Path(s).parent)]. *)
Variable home_dir : string.
Variable isfile : string -> bool.
Variable ps_output : string.
Variable parent : string -> string.

(** The first loop, over the two places below the home directory. *)
Fixpoint first_file (places : list string) : option string :=
  match places with
  | [] => None
  | x :: rest =>
      let library_vdf := home_dir ++ x ++ libraryfolders_path in
      if isfile library_vdf then Some library_vdf else first_file rest
  end.

(** [split_str[-2]] and [split_str[-1]]; short of two fields the first
    of them raises. *)
Definition last_two (split_str : list string) : Res (string * string) :=
  match rev split_str with
  | last :: before :: _ => Ok (before, last)
  | _ => Err IndexError
  end.

(** The second loop, over the lines of the process list. *)
Fixpoint scan_processes (xs : list string) : Res (option string) :=
  match xs with
  | [] => Ok None
  | x :: rest =>
      if String.eqb (strip x) EmptyString then scan_processes rest
      else
        fields <- last_two (split x) ;;
        if String.eqb (fst fields) "bash"
           && endswith "/steam.sh" (snd fields)
        then
          let steam_dir := parent (snd fields) in
          let library_vdf := steam_dir ++ libraryfolders_path in
          if isfile library_vdf then Ok (Some library_vdf)
          else scan_processes rest
        else scan_processes rest
  end.

(** [locate_steam_dir()] *)
Definition locate_steam_dir : Res (option string) :=
  match first_file ["/.steam/steam"; "/.local/share/Steam/"] with
  | Some library_vdf => Ok (Some library_vdf)
  | None => scan_processes (split_newline ps_output)
  end.

End LocateSteam.

(** The file that a line of the process list points to: the line has at
    least two fields, the last but one is [bash], the last one ends in
    [/steam.sh], and the file is [libraryfolders.vdf] below the folder
    of that script. *)
Definition points_to (parent : string -> string) (line vdf : string)
  : Prop :=
  exists before script,
    split line = (before ++ ["bash"; script])%list /\
    endswith "/steam.sh" script = true /\
    vdf = parent script ++ libraryfolders_path.

(** A process list with the line of a running Steam, and the folder of a
    script. *)
Definition example_ps : string :=
  "me 1 bash /opt/steam/steam.sh" ++ String NL "lonely".

Definition example_parent (s : string) : string :=
  if String.eqb s "/opt/steam/steam.sh" then "/opt/steam" else s.

(** ** [main] *)

(** The messages of [main] and of [locate_tf2_dir], by what they say:
    not Linux, press Enter, not as root, Steam not found, game not
    found, game found in a folder, installation successful. *)
Inductive Message : Type :=
| NotLinux
| PressEnter
| NotAsRoot
| NoSteam
| NoGame
| FoundGame (tf2_folder : string)
| Successful.

(** What [main] does to the world: a message printed, a line asked for
    with [input], or an event of [copy_asset_pack_files]. *)
Inductive Action : Type :=
| Say (m : Message)
| Ask (m : Message)
| Do (e : Event).

(** The world of [main]: [os.getuid()], or nothing where [os] has none;
    the home directory, the file system, the process list and the
    folder of a path; the working directory, [os.walk] and
    [os.path.getsize]. *)
Record World : Type := {
  getuid : option nat;
  w_home_dir : string;
  w_isfile : string -> bool;
  w_isdir : string -> bool;
  w_ps_output : string;
  w_parent : string -> string;
  w_open_text : string -> option string;
  w_getcwd : string;
  w_walk : string -> list (string * list string);
  w_getsize : string -> nat
}.

(** [main()]: the actions in order, and how it ended.  [not s] holds
    for [None] and for the empty string.  The message of the game found
    is printed by [locate_tf2_dir] before it returns the folder. *)
Definition main (w : World) : list Action * Res unit :=
  match getuid w with
  | None => ([Say NotLinux; Ask PressEnter], Ok tt)
  | Some uid =>
      if (uid =? 0)%nat then ([Say NotAsRoot], Ok tt)
      else
        match locate_steam_dir (w_home_dir w) (w_isfile w) (w_ps_output w)
                               (w_parent w) with
        | Err e => ([], Err e)
        | Stuck => ([], Stuck)
        | Ok None => ([Say NoSteam], Ok tt)
        | Ok (Some library_vdf) =>
            if String.eqb library_vdf EmptyString
            then ([Say NoSteam], Ok tt)
            else
              match locate_tf2_dir (w_open_text w) (w_isdir w)
                                   (w_isfile w) library_vdf with
              | Err e => ([], Err e)
              | Stuck => ([], Stuck)
              | Ok None => ([Say NoGame], Ok tt)
              | Ok (Some tf2_dir) =>
                  if String.eqb tf2_dir EmptyString
                  then ([Say (FoundGame tf2_dir); Say NoGame], Ok tt)
                  else
                    let (events, exc) :=
                      copy_asset_pack_files
                        (w_getcwd w) (w_walk w) (w_getsize w) tf2_dir in
                    match exc with
                    | Some e =>
                        ((Say (FoundGame tf2_dir) :: map Do events)%list,
                         Err e)
                    | None =>
                        ((Say (FoundGame tf2_dir) :: map Do events
                          ++ [Say Successful])%list, Ok tt)
                    end
              end
        end
  end.

(** A world in which the game is found through the process list. *)
Definition example_world : World :=
  {| getuid := Some 1000;
     w_home_dir := "/home/me";
     w_isfile := fun f =>
       String.eqb f "/opt/steam/steamapps/libraryfolders.vdf"
       || String.eqb f "/lib/steamapps/common/Team Fortress 2/hl2_linux";
     w_isdir := fun _ => true;
     w_ps_output := example_ps;
     w_parent := example_parent;
     w_open_text := fun _ => Some example_vdf;
     w_getcwd := "/pack";
     w_walk := example_walk;
     w_getsize := example_getsize |}.

(** ** The fuel of [parse_loop] *)

Section FuelFacts.

Variable km : option (string -> string).
Variable lines : list string.

Lemma parse_loop_S fuel i key m :
  parse_loop km lines (S fuel) i key m =
  iteration km lines (fun j => parse_loop km lines fuel j None [])
            (parse_loop km lines fuel) i key m.
Proof. reflexivity. Qed.

(** Splits a goal about [iteration] along the tests of the loop body,
    in the order the body makes them; [nested] handles the outcome of
    the nested call, [next] an iteration that goes on, [stop] one that
    returns or raises. *)
Ltac iteration_cases line key nested next stop :=
  destruct (startswith "{" line);
  [ destruct key as [?|]; [|stop];
    match goal with
    | |- context [String.eqb ?k EmptyString] =>
        destruct (String.eqb k EmptyString)
    end; [stop|]; nested
  | destruct (startswith "}" line); [stop|];
    destruct (match_key line);
    [ destruct (search match_key line); [next|stop]
    | destruct (match_key_value line);
      [ destruct (search match_key_value line) as [[? ?]|]; [next|stop]
      | destruct (nth_error lines (_ + 1)) as [?following|]; [|stop];
        destruct (match_key_value (line ++ following)); [|next];
        destruct (search match_key_value (line ++ " " ++ following))
          as [[? ?]|]; [next|stop] ] ] ].

(** A call that returns a cursor returns one past its own. *)
Lemma cursor_grows fuel :
  forall i key m m' j,
    parse_loop km lines fuel i key m = RetTuple m' j -> i < j.
Proof.
  induction fuel as [|fuel IH]; intros i key m m' j H; [discriminate|].
  rewrite parse_loop_S in H. unfold iteration in H.
  destruct (nth_error lines i) as [line|]; [|discriminate].
  revert H.
  iteration_cases line key
    ltac:(destruct (parse_loop km lines fuel (i + 1) None [])
            as [sub|sub j'|e|] eqn:E; try discriminate;
          intros H; apply IH in E; apply IH in H; lia)
    ltac:(intros H; apply IH in H; lia)
    ltac:(try discriminate; intros H; injection H as _ <-; lia).
Qed.

(** One more unit of fuel does not change a result. *)
Lemma fuel_step fuel :
  forall i key m,
    parse_loop km lines fuel i key m <> OutOfFuel ->
    parse_loop km lines (S fuel) i key m = parse_loop km lines fuel i key m.
Proof.
  induction fuel as [|fuel IH]; intros i key m H; [now elim H|].
  rewrite (parse_loop_S (S fuel)). rewrite parse_loop_S in H |- *.
  unfold iteration in *.
  destruct (nth_error lines i) as [line|]; [|reflexivity].
  revert H.
  iteration_cases line key
    ltac:(destruct (parse_loop km lines fuel (i + 1) None [])
            as [sub|sub j|e|] eqn:E; intros H;
          [ | | | now elim H]; rewrite IH by congruence; rewrite E;
          [reflexivity | apply IH, H | reflexivity])
    ltac:(intros H; apply IH, H)
    ltac:(reflexivity).
Qed.

Lemma fuel_more fuel extra i key m :
  parse_loop km lines fuel i key m <> OutOfFuel ->
  parse_loop km lines (extra + fuel) i key m = parse_loop km lines fuel i key m.
Proof.
  intros H. induction extra as [|extra IH]; [reflexivity|].
  change (S extra + fuel) with (S (extra + fuel)).
  rewrite fuel_step; rewrite IH; auto.
Qed.

(** More fuel than there are lines left is enough. *)
Lemma fuel_enough fuel :
  forall i key m,
    length lines - i < fuel -> parse_loop km lines fuel i key m <> OutOfFuel.
Proof.
  induction fuel as [|fuel IH]; intros i key m Hf; [lia|].
  rewrite parse_loop_S. unfold iteration.
  destruct (nth_error lines i) as [line|] eqn:Hi; [|discriminate].
  assert (Hlt : i < length lines) by (apply nth_error_Some; congruence).
  assert (Hnext : forall k' m',
             parse_loop km lines fuel (i + 1) k' m' <> OutOfFuel)
    by (intros; apply IH; lia).
  iteration_cases line key
    ltac:(destruct (parse_loop km lines fuel (i + 1) None [])
            as [sub|sub j|e|] eqn:E; try discriminate;
          [ apply cursor_grows in E; apply IH; lia
          | now apply Hnext in E ])
    ltac:(apply Hnext)
    ltac:(discriminate).
Qed.

Lemma fuel_irrelevant fuel i key m :
  length lines - i < fuel ->
  parse_loop km lines fuel i key m = loop km lines i key m.
Proof.
  intros Hf. unfold loop.
  replace fuel with ((fuel - S (length lines - i)) + S (length lines - i))
    by lia.
  apply fuel_more. apply fuel_enough. lia.
Qed.

(** The loop satisfies the equation of its body: [loop] is the [while]
    loop of [__parse], with no fuel left to see. *)
Lemma loop_unfold i key m :
  loop km lines i key m =
  iteration km lines (__parse km lines) (loop km lines) i key m.
Proof.
  unfold loop at 1. rewrite parse_loop_S. unfold iteration, __parse.
  destruct (nth_error lines i) as [line|] eqn:Hi; [|reflexivity].
  assert (Hlt : i < length lines) by (apply nth_error_Some; congruence).
  assert (Hnext : forall k' m',
             parse_loop km lines (length lines - i) (i + 1) k' m' =
             loop km lines (i + 1) k' m')
    by (intros; apply fuel_irrelevant; lia).
  iteration_cases line key
    ltac:(rewrite Hnext;
          destruct (loop km lines (i + 1) None []) as [sub|sub j|e|] eqn:E;
          try reflexivity;
          assert (i + 1 < j)
            by (unfold loop in E; now apply cursor_grows in E);
          apply fuel_irrelevant; lia)
    ltac:(apply Hnext)
    ltac:(reflexivity).
Qed.

(** Every run ends: it returns or raises. *)
Lemma loop_total i key m : loop km lines i key m <> OutOfFuel.
Proof. unfold loop. apply fuel_enough. lia. Qed.

End FuelFacts.

(** ** The two patterns on lines of quoted tokens *)

Section RegexFacts.

Lemma append_assoc (a b c : string) : (a ++ b) ++ c = a ++ (b ++ c).
Proof. induction a as [|x a IH]; simpl; [reflexivity | now rewrite IH]. Qed.

Lemma quote_cases q : is_quote q = true -> q = SQ \/ q = DQ.
Proof.
  unfold is_quote. intros H. apply orb_true_iff in H.
  destruct H as [H|H]; apply Ascii.eqb_eq in H; auto.
Qed.

Lemma quote_not_space q : is_quote q = true -> is_space q = false.
Proof. intros H. destruct (quote_cases q H); subst; reflexivity. Qed.

Lemma quote_is_dot q : is_quote q = true -> is_dot q = true.
Proof. intros H. destruct (quote_cases q H); subst; reflexivity. Qed.

Lemma quote_not_brace q s :
  is_quote q = true ->
  startswith "{" (String q s) = false /\ startswith "}" (String q s) = false.
Proof. intros H. destruct (quote_cases q H); subst; split; reflexivity. Qed.

Context {R : Type}.

(** The body of a token ends at the first [q]: giving characters back
    leaves the back reference in front of a character that is not
    [q]. *)
Lemma star_not_ref_stop q body rest (k : string -> string -> option R) :
  free_of q body = true ->
  star_not_ref q (body ++ String q rest) (fun cap s => backref q s (k cap))
  = k body rest.
Proof.
  unfold free_of. revert k.
  induction body as [|c body IH]; intros k H; simpl.
  - rewrite Ascii.eqb_refl. reflexivity.
  - simpl in H. apply andb_true_iff in H. destruct H as [Hq Hn].
    apply andb_true_iff in Hq. destruct Hq as [Hc Hq].
    apply andb_true_iff in Hn. destruct Hn as [Hd Hn].
    rewrite Hc, Hd. simpl.
    rewrite (IH (fun cap => k (String c cap)))
      by (now rewrite Hq, Hn).
    apply negb_true_iff in Hc. rewrite Hc.
    now destruct (k (String c body) rest).
Qed.

(** Without a [q] in the subject the back reference never matches. *)
Lemma star_not_ref_lacks q s (k : string -> string -> option R) :
  lacks q s = true ->
  star_not_ref q s (fun cap s' => backref q s' (k cap)) = None.
Proof.
  revert k. induction s as [|c s IH]; intros k H; simpl; [reflexivity|].
  simpl in H. apply andb_true_iff in H. destruct H as [Hc Hq].
  rewrite Hc. apply negb_true_iff in Hc. rewrite Hc.
  rewrite (IH (fun cap => k (String c cap))) by assumption.
  now destruct (is_dot c).
Qed.

(** White space in front of a quote is taken whole. *)
Lemma spaces_alt_quote ws q2 rest (k : string -> option R) :
  all_space ws = true -> is_quote q2 = true ->
  spaces_alt (ws ++ String q2 rest) (fun s => any_quote s k) = k rest.
Proof.
  intros Hws Hq2. induction ws as [|c ws IH]; unfold spaces_alt in *; simpl.
  - rewrite (quote_not_space q2 Hq2), Hq2. reflexivity.
  - simpl in Hws. apply andb_true_iff in Hws. destruct Hws as [Hc Hws].
    rewrite Hc. rewrite (IH Hws).
    assert (is_quote c = false) as ->.
    { destruct (is_quote c) eqn:E; [|reflexivity].
      apply quote_not_space in E. congruence. }
    now destruct (k rest).
Qed.

End RegexFacts.

(** [re.search] finds what [re.match] finds, where [re.match] finds
    something. *)
Lemma search_of_match {R : Type} (m : string -> option R) s r :
  m s = Some r -> search m s = Some r.
Proof. intros H. destruct s; simpl; now rewrite H. Qed.

(** The key pattern on a line that starts with a token. *)
Lemma match_key_token q k rest :
  is_quote q = true -> free_of q k = true ->
  match_key (String q (k ++ String q rest)) =
  not_followed_by_dot rest (fun _ => Some k).
Proof.
  intros Hq Hk. unfold match_key. rewrite Hq.
  now rewrite star_not_ref_stop.
Qed.

(** The key/value pattern on a line that starts with a token, white
    space and an opening quote: what is left is to find the body of the
    value and the closing [q]. *)
Lemma match_key_value_tokens q k ws q2 rest :
  is_quote q = true -> free_of q k = true ->
  all_space ws = true -> is_quote q2 = true ->
  match_key_value (String q (k ++ String q (ws ++ String q2 rest))) =
  star_not_ref q rest
    (fun value s6 => backref q s6 (fun _ => Some (k, value))).
Proof.
  intros Hq Hk Hws Hq2. unfold match_key_value. rewrite Hq.
  rewrite star_not_ref_stop by assumption.
  now rewrite spaces_alt_quote.
Qed.

(** ** The cases of the loop body *)

Section LoopFacts.

Variable km : option (string -> string).
Variable lines : list string.

(** Past the last line the call returns its bare mapper. *)
Lemma loop_end i key m :
  nth_error lines i = None -> loop km lines i key m = RetMapper m.
Proof. intros H. rewrite loop_unfold. unfold iteration. now rewrite H. Qed.

(** An opening brace without a key raises. *)
Lemma loop_open_no_key i key m line :
  nth_error lines i = Some line -> startswith "{" line = true ->
  falsy key = true ->
  loop km lines i key m = Raise (StructuralError (i + 1)).
Proof.
  intros Hi Ho Hk. rewrite loop_unfold. unfold iteration.
  rewrite Hi, Ho. destruct key as [k|]; [|reflexivity].
  simpl in Hk. now rewrite Hk.
Qed.

(** An opening brace after a key runs the nested call and unpacks its
    result. *)
Lemma loop_open i k m line :
  nth_error lines i = Some line -> startswith "{" line = true ->
  String.eqb k EmptyString = false ->
  loop km lines i (Some k) m =
  match __parse km lines (i + 1) with
  | RetTuple sub j => loop km lines j (Some k) (setitem m k (Mapping sub))
  | RetMapper sub => Raise (unpack_error sub)
  | Raise e => Raise e
  | OutOfFuel => OutOfFuel
  end.
Proof.
  intros Hi Ho Hk. rewrite loop_unfold at 1. unfold iteration.
  now rewrite Hi, Ho, Hk.
Qed.

(** A closing brace returns the mapper and the next cursor. *)
Lemma loop_close i key m line :
  nth_error lines i = Some line -> startswith "{" line = false ->
  startswith "}" line = true ->
  loop km lines i key m = RetTuple m (i + 1).
Proof.
  intros Hi Ho Hc. rewrite loop_unfold. unfold iteration.
  now rewrite Hi, Ho, Hc.
Qed.

(** A line that the key pattern matches sets the pending key. *)
Lemma loop_key i key m line k :
  nth_error lines i = Some line -> startswith "{" line = false ->
  startswith "}" line = false -> match_key line = Some k ->
  loop km lines i key m =
  loop km lines (i + 1) (Some (__key_modifier k km)) m.
Proof.
  intros Hi Ho Hc Hk. rewrite loop_unfold at 1. unfold iteration.
  now rewrite Hi, Ho, Hc, Hk, (search_of_match _ _ _ Hk).
Qed.

(** A line that the key/value pattern matches binds the pair. *)
Lemma loop_key_value i key m line k v :
  nth_error lines i = Some line -> startswith "{" line = false ->
  startswith "}" line = false -> match_key line = None ->
  match_key_value line = Some (k, v) ->
  loop km lines i key m =
  loop km lines (i + 1) key (setitem m (__key_modifier k km) (Scalar v)).
Proof.
  intros Hi Ho Hc Hk Hkv. rewrite loop_unfold at 1. unfold iteration.
  now rewrite Hi, Ho, Hc, Hk, Hkv, (search_of_match _ _ _ Hkv).
Qed.

(** A line that matches the key/value pattern only together with the
    following line binds the pair found in the two lines joined by a
    space, and goes on with the following line. *)
Lemma loop_two_lines i key m line following k v :
  nth_error lines i = Some line -> startswith "{" line = false ->
  startswith "}" line = false -> match_key line = None ->
  match_key_value line = None ->
  nth_error lines (i + 1) = Some following ->
  match_key_value (line ++ following) <> None ->
  search match_key_value (line ++ " " ++ following) = Some (k, v) ->
  loop km lines i key m =
  loop km lines (i + 1) key (setitem m (__key_modifier k km) (Scalar v)).
Proof.
  intros Hi Ho Hc Hk Hkv Hn H2 Hs. rewrite loop_unfold at 1.
  unfold iteration. rewrite Hi, Ho, Hc, Hk, Hkv, Hn, Hs.
  now destruct (match_key_value (line ++ following)).
Qed.

(** A line that matches nothing, alone or with the following line, is
    passed over. *)
Lemma loop_skip i key m line following :
  nth_error lines i = Some line -> startswith "{" line = false ->
  startswith "}" line = false -> match_key line = None ->
  match_key_value line = None ->
  nth_error lines (i + 1) = Some following ->
  match_key_value (line ++ following) = None ->
  loop km lines i key m = loop km lines (i + 1) key m.
Proof.
  intros Hi Ho Hc Hk Hkv Hn H2. rewrite loop_unfold at 1.
  unfold iteration. now rewrite Hi, Ho, Hc, Hk, Hkv, Hn, H2.
Qed.

(** On the last line the look at the following line raises
    [IndexError], which ends the call with its bare mapper. *)
Lemma loop_last i key m line :
  nth_error lines i = Some line -> startswith "{" line = false ->
  startswith "}" line = false -> match_key line = None ->
  match_key_value line = None ->
  nth_error lines (i + 1) = None ->
  loop km lines i key m = RetMapper m.
Proof.
  intros Hi Ho Hc Hk Hkv Hn. rewrite loop_unfold at 1.
  unfold iteration. now rewrite Hi, Ho, Hc, Hk, Hkv, Hn.
Qed.

End LoopFacts.

(** ** The keys of a mapper *)

Section MapperFacts.




Lemma getitem_setitem m k v : getitem (setitem m k v) k = Some v.
Proof.
  induction m as [|[k' v'] m IH]; simpl.
  - now rewrite String.eqb_refl.
  - destruct (String.eqb k' k) eqn:E; simpl; now rewrite E.
Qed.




End MapperFacts.

Section UniqueKeys.

Variable km : option (string -> string).
Variable lines : list string.


End UniqueKeys.

(** ** What the key/value pattern matches *)

Section PatternShape.

Lemma two_tokens_app q k ws q2 v tail :
  two_tokens q k ws q2 v ++ tail =
  String q (k ++ String q (ws ++ String q2 (v ++ String q tail))).
Proof.
  unfold two_tokens. simpl. now rewrite !append_assoc; simpl;
    rewrite !append_assoc; simpl; rewrite !append_assoc.
Qed.

(** The pattern matches every line that starts with two tokens, and
    captures their bodies. *)
Lemma match_key_value_two_tokens q k ws q2 v tail :
  is_quote q = true -> free_of q k = true -> all_space ws = true ->
  is_quote q2 = true -> free_of q v = true ->
  match_key_value (two_tokens q k ws q2 v ++ tail) = Some (k, v).
Proof.
  intros Hq Hk Hws Hq2 Hv. rewrite two_tokens_app.
  rewrite match_key_value_tokens by assumption.
  now rewrite star_not_ref_stop.
Qed.

Lemma free_of_cons q c s :
  free_of q (String c s) = true <->
  (c =? q)%char = false /\ is_dot c = true /\ free_of q s = true.
Proof.
  unfold free_of. simpl. rewrite !andb_true_iff, negb_true_iff. tauto.
Qed.

Lemma star_not_ref_inv {R : Type} q s (K : string -> string -> option R) r :
  star_not_ref q s K = Some r ->
  exists cap rest,
    s = cap ++ rest /\ free_of q cap = true /\ K cap rest = Some r.
Proof.
  revert K. induction s as [|c s IH]; intros K H; simpl in H.
  - exists EmptyString, EmptyString. auto.
  - destruct (negb (c =? q)%char && is_dot c) eqn:E.
    + destruct (star_not_ref q s (fun cap rest => K (String c cap) rest))
        as [r'|] eqn:E'.
      * injection H as ->. apply IH in E'.
        destruct E' as (cap & rest & -> & Hf & HK).
        exists (String c cap), rest. repeat split; [|exact HK].
        apply andb_true_iff in E. destruct E as [E1 E2].
        apply negb_true_iff in E1. now apply free_of_cons.
      * exists EmptyString, (String c s). auto.
    + exists EmptyString, (String c s). auto.
Qed.

Lemma spaces_plus_inv {R : Type} s (K : string -> option R) r :
  spaces_plus s K = Some r ->
  exists ws rest, s = ws ++ rest /\ all_space ws = true /\ K rest = Some r.
Proof.
  induction s as [|c s IH]; intros H; simpl in H; [discriminate|].
  destruct (is_space c) eqn:E; [|discriminate].
  destruct (spaces_plus s K) as [r'|] eqn:E'.
  - injection H as ->. destruct (IH eq_refl) as (ws & rest & -> & Hws & HK).
    exists (String c ws), rest. simpl. now rewrite E, Hws.
  - exists (String c EmptyString), s. simpl. now rewrite E.
Qed.

Lemma spaces_alt_inv {R : Type} s (K : string -> option R) r :
  spaces_alt s K = Some r ->
  exists ws rest, s = ws ++ rest /\ all_space ws = true /\ K rest = Some r.
Proof.
  unfold spaces_alt. intros H.
  destruct (spaces_plus s K) as [r'|] eqn:E.
  - injection H as ->. now apply spaces_plus_inv.
  - exists EmptyString, s. auto.
Qed.

(** Conversely, a line that the pattern matches starts with two
    tokens. *)
Lemma match_key_value_inv s k v :
  match_key_value s = Some (k, v) ->
  exists q ws q2 tail,
    s = two_tokens q k ws q2 v ++ tail /\
    is_quote q = true /\ free_of q k = true /\ all_space ws = true /\
    is_quote q2 = true /\ free_of q v = true.
Proof.
  unfold match_key_value. intros H.
  destruct s as [|q s1]; [discriminate|].
  destruct (is_quote q) eqn:Hq; [|discriminate].
  apply star_not_ref_inv in H. destruct H as (key & s2 & -> & Hk & H).
  destruct s2 as [|c s3]; [discriminate|]. simpl in H.
  destruct (c =? q)%char eqn:Ec; [|discriminate].
  apply Ascii.eqb_eq in Ec. subst c.
  apply spaces_alt_inv in H. destruct H as (ws & s4 & -> & Hws & H).
  destruct s4 as [|q2 s5]; [discriminate|]. simpl in H.
  destruct (is_quote q2) eqn:Hq2; [|discriminate].
  apply star_not_ref_inv in H. destruct H as (value & s6 & -> & Hv & H).
  destruct s6 as [|c tail]; [discriminate|]. simpl in H.
  destruct (c =? q)%char eqn:Ec; [|discriminate].
  apply Ascii.eqb_eq in Ec. subst c. injection H as -> ->.
  exists q, ws, q2, tail. rewrite two_tokens_app. auto 10.
Qed.

End PatternShape.

(** ** The two-line rule always finds its pair *)

Section TwoLines.

Ltac normalize_append := repeat (simpl; rewrite ?append_assoc).

Lemma append_split (a b x y : string) :
  a ++ b = x ++ y ->
  (exists z, x = a ++ z /\ b = z ++ y) \/
  (exists c z, a = x ++ String c z /\ y = String c z ++ b).
Proof.
  revert x. induction a as [|c a IH]; intros x H; simpl in H.
  - left. exists x. auto.
  - destruct x as [|d x]; simpl in H.
    + right. exists c, a. auto.
    + injection H as -> H. destruct (IH _ H) as [(z & -> & ->)|(e & z & -> & ->)].
      * left. exists z. auto.
      * right. exists e, z. auto.
Qed.

Lemma lacks_app q a b : lacks q (a ++ b) = lacks q a && lacks q b.
Proof.
  induction a as [|c a IH]; simpl; [reflexivity|].
  now rewrite IH, andb_assoc.
Qed.

Lemma no_newline_app a b :
  no_newline (a ++ b) = no_newline a && no_newline b.
Proof.
  induction a as [|c a IH]; simpl; [reflexivity|].
  now rewrite IH, andb_assoc.
Qed.

Lemma free_of_app q a b :
  free_of q (a ++ b) = free_of q a && free_of q b.
Proof.
  unfold free_of. rewrite lacks_app, no_newline_app.
  now destruct (lacks q a), (lacks q b), (no_newline a), (no_newline b).
Qed.

Lemma all_space_app a b :
  all_space (a ++ b) = all_space a && all_space b.
Proof.
  induction a as [|c a IH]; simpl; [reflexivity|].
  now rewrite IH, andb_assoc.
Qed.

Lemma free_of_space q : is_quote q = true -> free_of q " " = true.
Proof. intros H. destruct (quote_cases q H); subst; reflexivity. Qed.

(** A space put into the body of a token leaves a token. *)
Lemma free_of_insert q a b :
  is_quote q = true -> free_of q (a ++ b) = true ->
  free_of q (a ++ " " ++ b) = true.
Proof.
  intros Hq H. rewrite free_of_app in H. apply andb_true_iff in H.
  destruct H as [Ha Hb].
  now rewrite !free_of_app, Ha, Hb, (free_of_space q Hq).
Qed.

Lemma all_space_insert a b :
  all_space (a ++ b) = true -> all_space (a ++ " " ++ b) = true.
Proof.
  rewrite !all_space_app. intros H. apply andb_true_iff in H.
  destruct H as [-> ->]. reflexivity.
Qed.

Lemma match_key_value_shape s q k ws q2 v tail :
  s = String q (k ++ String q (ws ++ String q2 (v ++ String q tail))) ->
  is_quote q = true -> free_of q k = true -> all_space ws = true ->
  is_quote q2 = true -> free_of q v = true ->
  match_key_value s = Some (k, v).
Proof.
  intros -> Hq Hk Hws Hq2 Hv. rewrite <- two_tokens_app.
  now apply match_key_value_two_tokens.
Qed.

(** When two lines put end to end match the key/value pattern and the
    first of them alone does not, the two lines joined by a space match
    it as well: the space falls into a token or into the white space
    between the tokens.  The [re.search] of the two-line rule never comes
    back empty. *)
Lemma search_two_lines line following :
  match_key_value line = None ->
  match_key_value (line ++ following) <> None ->
  search match_key_value (line ++ " " ++ following) <> None.
Proof.
  intros Hkv H2.
  destruct (match_key_value (line ++ following)) as [[k v]|] eqn:E;
    [clear H2 | now elim H2].
  pose proof E as E0.
  apply match_key_value_inv in E.
  destruct E as (q & ws & q2 & tail & Heq & Hq & Hk & Hws & Hq2 & Hv).
  rewrite two_tokens_app in Heq.
  destruct line as [|a A1].
  - (* an empty first line: the match starts after the space *)
    simpl in E0 |- *. now rewrite (search_of_match _ _ _ E0).
  - simpl in Heq. injection Heq as -> Heq.
    assert (Hfound : exists k' v',
               match_key_value (String q A1 ++ " " ++ following)
               = Some (k', v')).
    { apply append_split in Heq.
      destruct Heq as [(z & -> & ->)|(c & z & -> & Heq)].
      - (* the space falls into the key *)
        exists (A1 ++ " " ++ z), v.
        apply (match_key_value_shape _ q _ ws q2 v tail); auto.
        + now normalize_append.
        + now apply free_of_insert.
      - simpl in Heq. injection Heq as <- Heq. symmetry in Heq.
        apply append_split in Heq.
        destruct Heq as [(w & -> & ->)|(c2 & z2 & -> & Heq)].
        + (* the space falls between the tokens *)
          exists k, v.
          apply (match_key_value_shape _ q k (z ++ " " ++ w) q2 v tail);
            auto.
          * now normalize_append.
          * now apply all_space_insert.
        + simpl in Heq. injection Heq as <- Heq. symmetry in Heq.
          apply append_split in Heq.
          destruct Heq as [(w & -> & ->)|(c3 & z3 & -> & Heq)].
          * (* the space falls into the value *)
            exists k, (z2 ++ " " ++ w).
            apply (match_key_value_shape _ q k ws q2 _ tail); auto.
            -- now normalize_append.
            -- now apply free_of_insert.
          * (* the first line already holds both tokens *)
            simpl in Heq. injection Heq as <- Heq.
            match type of Hkv with
            | match_key_value ?s = None =>
                assert (Hm : match_key_value s = Some (k, v))
                  by (apply (match_key_value_shape _ q k ws q2 v z3); auto;
                      now normalize_append)
            end.
            congruence. }
    destruct Hfound as (k' & v' & Hfound).
    now rewrite (search_of_match _ _ _ Hfound).
Qed.

End TwoLines.

(** ** Runs of lines without braces *)

Section Runs.

Variable km : option (string -> string).
Variable lines : list string.

(** [AttributeError] is never raised: each [re.search] follows a
    [re.match] that makes it succeed. *)
Lemma no_attribute_error fuel :
  forall i key m, parse_loop km lines fuel i key m <> Raise AttributeError.
Proof.
  induction fuel as [|fuel IH]; intros i key m; [discriminate|].
  rewrite parse_loop_S. unfold iteration.
  destruct (nth_error lines i) as [line|]; [|discriminate].
  destruct (startswith "{" line).
  - destruct key as [k|]; [|discriminate].
    destruct (String.eqb k EmptyString); [discriminate|].
    destruct (parse_loop km lines fuel (i + 1) None []) as [sub|sub j|e|] eqn:E;
      try discriminate.
    + unfold unpack_error. now destruct (length sub =? 2)%nat.
    + apply IH.
    + intros H. injection H as ->. now apply IH in E.
  - destruct (startswith "}" line); [discriminate|].
    destruct (match_key line) as [k|] eqn:Ek.
    + rewrite (search_of_match _ _ _ Ek). apply IH.
    + destruct (match_key_value line) as [[k v]|] eqn:Ekv.
      * rewrite (search_of_match _ _ _ Ekv). apply IH.
      * destruct (nth_error lines (i + 1)) as [following|]; [|discriminate].
        destruct (match_key_value (line ++ following)) eqn:E2; [|apply IH].
        assert (Hs : search match_key_value (line ++ " " ++ following)
                     <> None)
          by (apply search_two_lines; congruence).
        destruct (search match_key_value (line ++ " " ++ following))
          as [[k v]|]; [apply IH | now elim Hs].
Qed.

(** A line that is neither a brace nor a lone token leaves the pending
    key alone and binds at most one scalar. *)
Lemma loop_inert i key m line :
  nth_error lines i = Some line -> inert line = true ->
  exists m', grown m m' /\
    (loop km lines i key m = loop km lines (i + 1) key m' \/
     (nth_error lines (i + 1) = None /\
      loop km lines i key m = RetMapper m)).
Proof.
  intros Hi Hin. unfold inert in Hin.
  apply andb_true_iff in Hin. destruct Hin as [Hin Hk].
  apply andb_true_iff in Hin. destruct Hin as [Ho Hc].
  apply negb_true_iff in Ho, Hc.
  destruct (match_key line) eqn:Ek; [discriminate|]. clear Hk.
  destruct (match_key_value line) as [[k v]|] eqn:Ekv.
  - exists (setitem m (__key_modifier k km) (Scalar v)).
    split; [right; eauto|]. left. now apply (loop_key_value km lines i key m line).
  - destruct (nth_error lines (i + 1)) as [following|] eqn:En.
    + destruct (match_key_value (line ++ following)) as [kv|] eqn:E2.
      * assert (Hs : search match_key_value (line ++ " " ++ following)
                     <> None)
          by (apply search_two_lines; congruence).
        destruct (search match_key_value (line ++ " " ++ following))
          as [[k v]|] eqn:Es; [|now elim Hs].
        exists (setitem m (__key_modifier k km) (Scalar v)).
        split; [right; eauto|]. left.
        apply (loop_two_lines km lines i key m line following); auto.
        congruence.
      * exists m. split; [now left|]. left.
        now apply (loop_skip km lines i key m line following).
    + exists m. split; [now left|]. right. split; [reflexivity|].
      now apply (loop_last km lines i key m line).
Qed.

(** A lone token leaves the mapper alone. *)
Lemma loop_token i key m line :
  nth_error lines i = Some line -> startswith "{" line = false ->
  startswith "}" line = false -> match_key line <> None ->
  exists key', loop km lines i key m = loop km lines (i + 1) key' m.
Proof.
  intros Hi Ho Hc Hk. destruct (match_key line) as [k|] eqn:Ek;
    [|now elim Hk].
  exists (Some (__key_modifier k km)).
  now apply (loop_key km lines i key m line).
Qed.

(** Without a line that starts with a brace the call runs to the end of
    the input and returns its bare mapper. *)
Lemma loop_without_braces :
  (forall line, In line lines ->
                startswith "{" line = false /\ startswith "}" line = false) ->
  forall d i key m,
    length lines - i <= d -> exists m', loop km lines i key m = RetMapper m'.
Proof.
  intros Hb. induction d as [|d IH]; intros i key m Hd.
  - exists m. apply loop_end. apply nth_error_None. lia.
  - destruct (nth_error lines i) as [line|] eqn:Hi;
      [|exists m; now apply loop_end].
    assert (Hlt : i < length lines) by (apply nth_error_Some; congruence).
    destruct (Hb line (nth_error_In _ _ Hi)) as [Ho Hc].
    destruct (match_key line) as [k|] eqn:Ek.
    + destruct (loop_token i key m line Hi Ho Hc) as [key' ->];
        [congruence|]. apply IH. lia.
    + destruct (loop_inert i key m line Hi) as (m' & _ & [-> | [_ ->]]).
      * unfold inert. now rewrite Ho, Hc, Ek.
      * apply IH. lia.
      * eauto.
Qed.

(** The first line of the input that starts with a brace, when it starts
    with an opening brace and no lone token comes before it, raises with
    its number. *)
Lemma loop_first_brace n line :
  nth_error lines n = Some line -> startswith "{" line = true ->
  (forall j l, j < n -> nth_error lines j = Some l -> inert l = true) ->
  forall d i key m,
    i + d = n -> falsy key = true ->
    loop km lines i key m = Raise (StructuralError (n + 1)).
Proof.
  intros Hn Ho Hpre. induction d as [|d IH]; intros i key m Hd Hk.
  - replace i with n by lia. now apply (loop_open_no_key km lines n key m line).
  - destruct (nth_error lines i) as [l|] eqn:Hi.
    + destruct (loop_inert i key m l Hi) as (m' & _ & [-> | [He _]]).
      * apply (Hpre i); [lia | exact Hi].
      * apply IH; [lia | exact Hk].
      * apply nth_error_None in He.
        assert (n < length lines) by (apply nth_error_Some; congruence).
        lia.
    + apply nth_error_None in Hi.
      assert (n < length lines) by (apply nth_error_Some; congruence). lia.
Qed.

End Runs.

(** ** Lone tokens *)

Section Tokens.

Lemma match_key_quoted q k :
  is_quote q = true -> free_of q k = true -> match_key (quoted q k) = Some k.
Proof.
  intros Hq Hk. unfold quoted. now rewrite match_key_token.
Qed.

Lemma quoted_not_brace q k :
  is_quote q = true ->
  startswith "{" (quoted q k) = false /\ startswith "}" (quoted q k) = false.
Proof. intros Hq. now apply quote_not_brace. Qed.

(** A lone token is taken as the pending key, whatever follows it. *)
Lemma loop_quoted km lines i key m q k :
  is_quote q = true -> free_of q k = true ->
  nth_error lines i = Some (quoted q k) ->
  loop km lines i key m =
  loop km lines (i + 1) (Some (__key_modifier k km)) m.
Proof.
  intros Hq Hk Hi. destruct (quoted_not_brace q k Hq) as [Ho Hc].
  apply (loop_key km lines i key m (quoted q k)); auto.
  now apply match_key_quoted.
Qed.

End Tokens.

(** ** The claims *)

(** C1, as stated, fails: on the five lines [a], an opening brace, [b],
    [c] and a closing brace, the tokens double-quoted, the root does not
    bind [a] to a mapper that holds the pair of [b] and [c]. *)
Lemma nested_tokens_counterexample :
  parse [dq "a"; "{"; dq "b"; dq "c"; "}"]
  <> RetMapper [("a", Mapping [("b", Scalar "c")])].
Proof. vm_compute. discriminate. Qed.

(** C1, amended: on these five lines, for any tokens [a], [b] and [c]
    with [a] not empty (a key that is not falsy), [parse] returns a root
    with the one pair of [a] and an empty nested mapper: [b] and [c] are
    lone tokens, each taken as the pending key of the nested call. *)
Theorem nested_tokens_are_pending_keys a b c :
  free_of DQ a = true -> falsy (Some a) = false ->
  free_of DQ b = true -> free_of DQ c = true ->
  parse [dq a; "{"; dq b; dq c; "}"] = RetMapper [(a, Mapping [])].
Proof.
  intros Ha Hne Hb Hc. unfold parse, __parse.
  rewrite (loop_quoted _ _ 0 _ _ DQ a) by auto. cbn [Nat.add].
  simpl in Hne.
  rewrite (loop_open _ _ 1 a [] "{") by auto.
  unfold __parse. cbn [Nat.add].
  rewrite (loop_quoted _ _ 2 _ _ DQ b) by auto. cbn [Nat.add].
  rewrite (loop_quoted _ _ 3 _ _ DQ c) by auto. cbn [Nat.add].
  rewrite (loop_close _ _ 4 _ _ "}") by auto. cbn [Nat.add].
  now rewrite loop_end.
Qed.

Lemma nested_tokens_witness :
  parse [dq "a"; "{"; dq "b"; dq "c"; "}"] = RetMapper [("a", Mapping [])].
Proof.
  apply (nested_tokens_are_pending_keys "a" "b" "c");
    reflexivity.
Defined.



(** C3, as stated, fails: on the two lines [k] and [v], each a
    double-quoted token, the root does not hold the pair of [k] and
    [v]. *)
Lemma two_tokens_on_two_lines_counterexample :
  parse [dq "k"; dq "v"] <> RetMapper [("k", Scalar "v")].
Proof. vm_compute. discriminate. Qed.

(** C3, amended: a line that is a lone quoted token is taken as the
    pending key by the single-token rule, which is tried before the
    two-line rule, whatever the following line is; [parse] on exactly
    two lines that are lone tokens returns an empty root. *)
Theorem lone_tokens_bind_nothing q1 k q2 v :
  is_quote q1 = true -> free_of q1 k = true ->
  is_quote q2 = true -> free_of q2 v = true ->
  (forall km lines i key m,
      nth_error lines i = Some (quoted q1 k) ->
      loop km lines i key m =
      loop km lines (i + 1) (Some (__key_modifier k km)) m)
  /\ parse [quoted q1 k; quoted q2 v] = RetMapper [].
Proof.
  intros Hq1 Hk Hq2 Hv. split.
  - intros km lines i key m Hi. now apply (loop_quoted km lines i key m q1).
  - unfold parse, __parse.
    rewrite (loop_quoted _ _ 0 _ _ q1 k) by auto. cbn [Nat.add].
    rewrite (loop_quoted _ _ 1 _ _ q2 v) by auto. cbn [Nat.add].
    now rewrite loop_end.
Qed.

Lemma lone_tokens_witness : parse [dq "k"; dq "v"] = RetMapper [].
Proof.
  apply (lone_tokens_bind_nothing DQ "k" DQ "v"); reflexivity.
Defined.

(** A block left open: whatever the nested call gathered is lost in the
    failed assignment of the caller. *)
Lemma unclosed_block_unpack km lines i k m line sub :
  nth_error lines i = Some line -> startswith "{" line = true ->
  String.eqb k EmptyString = false ->
  __parse km lines (i + 1) = RetMapper sub ->
  loop km lines i (Some k) m = Raise (unpack_error sub).
Proof.
  intros Hi Ho Hk Hsub. rewrite (loop_open km lines i k m line) by auto.
  now rewrite Hsub.
Qed.

(** C4 fails on the code: on the three lines [k], an opening brace and
    [x], the nested call reaches the end of the input and returns its
    bare mapper, and the caller cannot unpack it into a mapper and a
    cursor. *)
Theorem unclosed_block_raises :
  __parse None [dq "k"; "{"; dq "x"] 2 = RetMapper []
  /\ unpack_error [] = ValueError
  /\ parse [dq "k"; "{"; dq "x"] = Raise ValueError.
Proof.
  split; [|split].
  - unfold __parse.
    rewrite (loop_quoted _ _ 2 _ _ DQ "x") by reflexivity.
    now apply loop_end.
  - reflexivity.
  - unfold parse, __parse.
    rewrite (loop_quoted _ _ 0 _ _ DQ "k") by reflexivity. cbn [Nat.add].
    now rewrite (unclosed_block_unpack _ _ 1 "k" [] "{" []).
Qed.

(** C5 fails on the code: [parse] raises a [ValueError] or a [TypeError]
    on a block left open, and returns a pair of a mapper and a cursor,
    not a mapper, when a line of the top level starts with a closing
    brace, leaving the lines after it unread. *)
Theorem outcomes_beyond_two_errors :
  parse [dq "k"; "{"; dq "x"] = Raise ValueError
  /\ parse [dq "k"; "{"; dq "a" ++ " " ++ dq "1"; dq "b" ++ " " ++ dq "2"]
     = Raise TypeError
  /\ parse ["}"; dq "a" ++ " " ++ dq "b"] = RetTuple [] 1.
Proof. repeat split. Qed.

(** What holds of C5: the input without a line that starts with a brace
    is read to its end, and the root is a mapper. *)
Lemma parse_without_braces lines :
  (forall line, In line lines ->
                startswith "{" line = false /\ startswith "}" line = false) ->
  exists m, parse lines = RetMapper m.
Proof.
  intros H. apply (loop_without_braces None lines H (length lines)). lia.
Qed.

(** What holds of C6: a line that starts with an opening brace, met
    while the variable [key] of the running call is not set, raises the
    error with the 1-based number of that line; an error raised in a
    nested call leaves the calling one as well, so it reaches the caller
    of [parse]; and when no brace and no lone token comes before that
    line, [parse] raises with its number. *)
Lemma open_brace_without_key_raises km lines n line :
  nth_error lines n = Some line -> startswith "{" line = true ->
  (forall key m,
      falsy key = true ->
      loop km lines n key m = Raise (StructuralError (n + 1)))
  /\ (forall i outer k m e,
         nth_error lines i = Some outer -> startswith "{" outer = true ->
         String.eqb k EmptyString = false ->
         __parse km lines (i + 1) = Raise e ->
         loop km lines i (Some k) m = Raise e)
  /\ ((forall j l, j < n -> nth_error lines j = Some l -> inert l = true) ->
      __parse km lines 0 = Raise (StructuralError (n + 1))).
Proof.
  intros Hn Ho. split; [|split].
  - intros key m Hk. now apply (loop_open_no_key km lines n key m line).
  - intros i outer k m e Hi Hoo Hk He.
    rewrite (loop_open km lines i k m outer) by auto. now rewrite He.
  - intros Hpre. unfold __parse.
    now apply (loop_first_brace km lines n line Hn Ho Hpre n 0).
Qed.

Lemma open_brace_without_key_witness :
  parse ["{"; dq "x" ++ " " ++ dq "y"; "}"] = Raise (StructuralError 1).
Proof.
  apply (open_brace_without_key_raises
           None ["{"; dq "x" ++ " " ++ dq "y"; "}"] 0 "{");
    [reflexivity | reflexivity | intros j l Hj; lia].
Defined.

(** The error of a nested call, two levels down, reaches the caller. *)
Lemma nested_open_brace_raises :
  parse [dq "a"; "{"; dq "b"; "{"; "{"; "}"; "}"; "}"]
  = Raise (StructuralError 5).
Proof. reflexivity. Qed.

(** C6 fails on the code: [key] is not reset when its block has been
    bound, so an opening brace that follows a closed block has no key of
    its own and is accepted all the same.  It opens a second block under
    the key of the first, whose content is lost; no error is raised,
    where the claim has the error with the number [4], then [5], of the
    line of that brace.  The error of the claim's own example, on the
    line [1], is raised. *)
Theorem brace_after_block_is_accepted :
  parse [dq "a"; "{"; "}"; "{"; "}"] = RetMapper [("a", Mapping [])]
  /\ parse [dq "a"; "{"; dq "x" ++ " " ++ dq "1"; "}"; "{"; "}"]
     = RetMapper [("a", Mapping [])]
  /\ parse [dq "a"; "{"; dq "x" ++ " " ++ dq "1"; "}"; "{";
            dq "y" ++ " " ++ dq "2"; "}"]
     = RetMapper [("a", Mapping [("y", Scalar "2")])]
  /\ parse ["{"; dq "x" ++ " " ++ dq "y"; "}"] = Raise (StructuralError 1).
Proof. repeat split. Qed.

(** C7 fails on the code: a line whose key is between single quotes and
    whose value is between double quotes, or the other way round, is not
    matched by the key/value pattern, and [parse] binds nothing: the
    pattern closes the value with the quote of the key. *)
Theorem own_quotes_not_recognized :
  match_key_value (own_quotes SQ "k" " " DQ "v") = None
  /\ parse [own_quotes SQ "k" " " DQ "v"] = RetMapper []
  /\ match_key_value (own_quotes DQ "k" " " SQ "v") = None
  /\ parse [own_quotes DQ "k" " " SQ "v"] = RetMapper [].
Proof. repeat split. Qed.

(** The same for every key, white space and value: with two different
    quotes the pattern fails, whatever the text without quotes between
    them. *)
Lemma own_quotes_unmatched q k ws q2 v :
  is_quote q = true -> is_quote q2 = true -> q <> q2 ->
  free_of q k = true -> all_space ws = true -> lacks q v = true ->
  match_key_value (own_quotes q k ws q2 v) = None.
Proof.
  intros Hq Hq2 Hne Hk Hws Hv. unfold own_quotes.
  rewrite match_key_value_tokens by assumption.
  apply star_not_ref_lacks. rewrite lacks_app, Hv. simpl.
  apply Ascii.eqb_neq in Hne. rewrite Ascii.eqb_sym in Hne. now rewrite Hne.
Qed.

(** What the pattern accepts in its place: a value opened by any quote
    and closed by the quote of the key. *)
Lemma value_closed_by_key_quote :
  parse [two_tokens SQ "k" " " DQ "v"] = RetMapper [("k", Scalar "v")].
Proof. reflexivity. Qed.

Lemma startswith_char a s :
  startswith (String a EmptyString) s = true ->
  exists rest, s = String a rest.
Proof.
  unfold startswith. destruct s as [|c s]; cbn [prefix]; [discriminate|].
  destruct (ascii_dec a c) as [<-|]; [eauto | discriminate].
Qed.

Lemma close_not_open line :
  startswith "}" line = true -> startswith "{" line = false.
Proof.
  intros H. apply startswith_char in H. destruct H as [rest ->].
  reflexivity.
Qed.

(** C8: whenever the two-line rule applies (the line matches nothing
    alone and matches the key/value pattern with the following line put
    after it), a pair is found in the two lines joined by a space and is
    bound, and the pass through the body of the loop hands the cursor
    plus one, not plus two, to the rest of the loop, whatever that rest
    is.  So the following line is read again as a line of its own: when
    it starts with a closing brace the call returns there, with the pair
    bound and the cursor after that line; when it starts with an opening
    brace and no key is set the call raises with the number of that
    line. *)
Theorem two_line_rule_advances_one km lines i key m line following :
  nth_error lines i = Some line -> startswith "{" line = false ->
  startswith "}" line = false -> match_key line = None ->
  match_key_value line = None ->
  nth_error lines (i + 1) = Some following ->
  match_key_value (line ++ following) <> None ->
  exists k v,
    search match_key_value (line ++ " " ++ following) = Some (k, v) /\
    (forall call again,
        iteration km lines call again i key m =
        again (i + 1) key (setitem m (__key_modifier k km) (Scalar v))) /\
    loop km lines i key m =
    loop km lines (i + 1) key (setitem m (__key_modifier k km) (Scalar v)) /\
    (startswith "}" following = true ->
     loop km lines i key m =
     RetTuple (setitem m (__key_modifier k km) (Scalar v)) (i + 1 + 1)) /\
    (startswith "{" following = true -> falsy key = true ->
     loop km lines i key m = Raise (StructuralError (i + 1 + 1))).
Proof.
  intros Hi Ho Hc Hk Hkv Hn H2.
  pose proof (search_two_lines line following Hkv H2) as Hs.
  destruct (search match_key_value (line ++ " " ++ following))
    as [[k v]|] eqn:Es; [|now elim Hs].
  exists k, v.
  assert (Hl : loop km lines i key m =
               loop km lines (i + 1) key
                    (setitem m (__key_modifier k km) (Scalar v)))
    by now apply (loop_two_lines km lines i key m line following).
  split; [reflexivity|]. split; [|split; [exact Hl|split]].
  - intros call again. unfold iteration.
    rewrite Hi, Ho, Hc, Hk, Hkv, Hn, Es.
    now destruct (match_key_value (line ++ following)).
  - intros Hclose. rewrite Hl.
    apply (loop_close km lines (i + 1) key _ following); auto.
    now apply close_not_open.
  - intros Hopen Hfalsy. rewrite Hl.
    now apply (loop_open_no_key km lines (i + 1) key _ following).
Qed.

Lemma two_line_rule_witness :
  loop None broken_value_lines 2 None []
  = RetTuple [("k", Scalar "v }")] 4.
Proof.
  destruct (two_line_rule_advances_one
              None broken_value_lines 2 None []
              (dq "k" ++ " " ++ String DQ "v")
              (String "}" (String DQ EmptyString))
              eq_refl eq_refl eq_refl eq_refl eq_refl eq_refl
              ltac:(vm_compute; discriminate))
    as (k & v & Hs & _ & _ & Hclose & _).
  vm_compute in Hs. injection Hs as <- <-.
  exact (Hclose eq_refl).
Defined.

(** The second line of the pair is read again: in [broken_value_lines]
    it closes the block. *)
Lemma two_line_rule_rescans :
  parse broken_value_lines
  = RetMapper [("a", Mapping [("k", Scalar "v }")]); ("x", Scalar "y")].
Proof. reflexivity. Qed.

(** C9: a line is taken as an opening brace when it starts with one, and
    as a closing brace when it starts with one, whatever comes after the
    brace on the line; a line that starts with neither is never taken as
    a brace: it binds at most one scalar, sets at most the pending key
    and leaves the loop only at the end of the input. *)
Theorem brace_by_first_character km lines i key m line :
  nth_error lines i = Some line ->
  (forall rest, startswith "{" ("{" ++ rest) = true /\
                startswith "}" ("}" ++ rest) = true)
  /\ (startswith "{" line = true ->
      (falsy key = true ->
       loop km lines i key m = Raise (StructuralError (i + 1))) /\
      (forall k, key = Some k -> String.eqb k EmptyString = false ->
         loop km lines i key m =
         match __parse km lines (i + 1) with
         | RetTuple sub j =>
             loop km lines j key (setitem m k (Mapping sub))
         | RetMapper sub => Raise (unpack_error sub)
         | Raise e => Raise e
         | OutOfFuel => OutOfFuel
         end))
  /\ (startswith "}" line = true ->
      loop km lines i key m = RetTuple m (i + 1))
  /\ (startswith "{" line = false -> startswith "}" line = false ->
      exists key' m',
        grown m m' /\
        (loop km lines i key m = loop km lines (i + 1) key' m' \/
         (nth_error lines (i + 1) = None /\
          loop km lines i key m = RetMapper m))).
Proof.
  intros Hi. split; [|split; [|split]].
  - intros rest. split; now destruct rest.
  - intros Ho. split.
    + intros Hk. now apply (loop_open_no_key km lines i key m line).
    + intros k -> Hk. now apply (loop_open km lines i k m line).
  - intros Hc. apply (loop_close km lines i key m line); auto.
    now apply close_not_open.
  - intros Ho Hc. destruct (match_key line) as [k|] eqn:Ek.
    + destruct (loop_token km lines i key m line Hi Ho Hc) as [key' E];
        [congruence|].
      exists key', m. split; [now left | now left].
    + destruct (loop_inert km lines i key m line Hi) as (m' & Hg & H).
      * unfold inert. now rewrite Ho, Hc, Ek.
      * exists key, m'. now split.
Qed.

Lemma brace_by_first_character_witness :
  loop None [dq "k"; "{ " ++ dq "a" ++ " " ++ dq "b"; "} trailing"]
       1 (Some "k") []
  = match __parse None
            [dq "k"; "{ " ++ dq "a" ++ " " ++ dq "b"; "} trailing"] 2 with
    | RetTuple sub j =>
        loop None [dq "k"; "{ " ++ dq "a" ++ " " ++ dq "b"; "} trailing"]
             j (Some "k") (setitem [] "k" (Mapping sub))
    | RetMapper sub => Raise (unpack_error sub)
    | Raise e => Raise e
    | OutOfFuel => OutOfFuel
    end.
Proof.
  apply (brace_by_first_character
           None [dq "k"; "{ " ++ dq "a" ++ " " ++ dq "b"; "} trailing"]
           1 (Some "k") [] ("{ " ++ dq "a" ++ " " ++ dq "b"));
    reflexivity.
Defined.

(** A brace with text after it opens a block, and one closes it. *)
Lemma brace_with_trailing_text :
  parse [dq "k"; "{ " ++ dq "a" ++ " " ++ dq "b"; "} trailing"]
  = RetMapper [("k", Mapping [])].
Proof. reflexivity. Qed.

(** What holds of C10: on a line that starts with a key between quotes,
    white space or none, and a value opened by a quote and closed by the
    quote of the key, as two tokens with the same quote are, the
    key/value pattern matches whatever text comes after the value,
    further tokens included, and the bodies of the two tokens are bound
    as a pair. *)
Lemma two_tokens_prefix_is_bound km lines i key m q k ws q2 v tail :
  is_quote q = true -> free_of q k = true ->
  all_space ws = true -> no_newline ws = true ->
  is_quote q2 = true -> free_of q v = true ->
  nth_error lines i = Some (two_tokens q k ws q2 v ++ tail) ->
  match_key_value (two_tokens q k ws q2 v ++ tail) = Some (k, v)
  /\ loop km lines i key m =
     loop km lines (i + 1) key
          (setitem m (__key_modifier k km) (Scalar v)).
Proof.
  intros Hq Hk Hws Hnl Hq2 Hv Hi.
  assert (Hkv : match_key_value (two_tokens q k ws q2 v ++ tail)
                = Some (k, v))
    by now apply match_key_value_two_tokens.
  split; [exact Hkv|].
  apply (loop_key_value km lines i key m _ k v Hi); auto.
  - rewrite two_tokens_app. now apply quote_not_brace.
  - rewrite two_tokens_app. now apply quote_not_brace.
  - rewrite two_tokens_app. rewrite match_key_token by assumption.
    destruct ws as [|c ws]; simpl.
    + now rewrite (quote_is_dot q2 Hq2).
    + simpl in Hnl. apply andb_true_iff in Hnl. now rewrite (proj1 Hnl).
Qed.

Lemma two_tokens_prefix_witness :
  match_key_value (dq "k" ++ " " ++ dq "v" ++ " trailing " ++ dq "z")
  = Some ("k", "v")
  /\ loop None [dq "k" ++ " " ++ dq "v" ++ " trailing " ++ dq "z"] 0 None []
     = loop None [dq "k" ++ " " ++ dq "v" ++ " trailing " ++ dq "z"] 1 None
            [("k", Scalar "v")].
Proof.
  apply (two_tokens_prefix_is_bound
           None [dq "k" ++ " " ++ dq "v" ++ " trailing " ++ dq "z"]
           0 None [] DQ "k" " " DQ "v" (" trailing " ++ dq "z"));
    reflexivity.
Defined.

(** C10 fails on the code: on a line that starts with a key between
    single quotes and a value between double quotes, the text after the
    closing quote of the value is not ignored.  A token after it gives
    the quote that the pattern waits for, and the value that is bound
    runs from the value up to that quote, closing quote and white space
    included; other text after it makes the line match nothing, and no
    pair is bound.  The claim has the pair of [k] and [v] bound on both
    lines.  With the same quote for the two tokens the pair is bound. *)
Theorem tail_after_own_quotes_not_ignored :
  match_key_value (own_quotes SQ "k" " " DQ "v" ++ " " ++ sq "z")
  = Some ("k", String "v" (String DQ " "))
  /\ parse [own_quotes SQ "k" " " DQ "v" ++ " " ++ sq "z"]
     = RetMapper [("k", Scalar (String "v" (String DQ " ")))]
  /\ match_key_value (own_quotes SQ "k" " " DQ "v" ++ " trailing") = None
  /\ parse [own_quotes SQ "k" " " DQ "v" ++ " trailing"] = RetMapper []
  /\ parse [own_quotes DQ "k" " " DQ "v" ++ " " ++ dq "z"]
     = RetMapper [("k", Scalar "v")].
Proof. repeat split. Qed.

(** The same in the two-line rule: the text after the value, on the
    second line, is dropped. *)
Lemma two_line_rule_drops_tail :
  parse [dq "k" ++ " " ++ String DQ "v";
         "w" ++ String DQ EmptyString ++ " trailing " ++ dq "z"]
  = RetMapper [("k", Scalar "v w")].
Proof. reflexivity. Qed.

(** * Further properties of the code *)

(** ** Where a call of [__parse] stops *)

Section Stops.

Variable km : option (string -> string).
Variable lines : list string.

Ltac loop_cases line key nested next stop :=
  destruct (startswith "{" line) eqn:?;
  [ destruct key as [?|]; [|stop];
    match goal with
    | |- context [String.eqb ?k EmptyString] =>
        destruct (String.eqb k EmptyString)
    end; [stop|]; nested
  | destruct (startswith "}" line) eqn:?; [stop|];
    destruct (match_key line);
    [ destruct (search match_key line); [next|stop]
    | destruct (match_key_value line);
      [ destruct (search match_key_value line) as [[? ?]|]; [next|stop]
      | destruct (nth_error lines (_ + 1)) as [?following|]; [|stop];
        destruct (match_key_value (line ++ following)); [|next];
        destruct (search match_key_value (line ++ " " ++ following))
          as [[? ?]|]; [next|stop] ] ] ].

Lemma parse_loop_returns_after_close fuel :
  forall i key m m' j,
    parse_loop km lines fuel i key m = RetTuple m' j ->
    i < j /\
    exists line, nth_error lines (j - 1) = Some line /\
                 startswith "}" line = true.
Proof.
  induction fuel as [|fuel IH]; intros i key m m' j H; [discriminate|].
  rewrite parse_loop_S in H. unfold iteration in H.
  destruct (nth_error lines i) as [line|] eqn:Hi; [|discriminate].
  revert H.
  loop_cases line key
    ltac:(destruct (parse_loop km lines fuel (i + 1) None [])
            as [sub|sub j'|e|] eqn:E; try discriminate;
          intros H; apply IH in E; apply IH in H;
          destruct E as [E _]; destruct H as [H Hl];
          split; [lia | exact Hl])
    ltac:(intros H; apply IH in H; destruct H as [H Hl];
          split; [lia | exact Hl])
    ltac:(first [ discriminate
                | intros H; injection H as _ <-;
                  split; [lia|]; exists line;
                  replace (i + 1 - 1) with i by lia; auto ]).
Qed.

Lemma parse_loop_error_at_open fuel :
  forall i key m n,
    parse_loop km lines fuel i key m = Raise (StructuralError n) ->
    i < n /\
    exists line, nth_error lines (n - 1) = Some line /\
                 startswith "{" line = true.
Proof.
  induction fuel as [|fuel IH]; intros i key m n H; [discriminate|].
  rewrite parse_loop_S in H. unfold iteration in H.
  destruct (nth_error lines i) as [line|] eqn:Hi; [|discriminate].
  revert H.
  loop_cases line key
    ltac:(destruct (parse_loop km lines fuel (i + 1) None [])
            as [sub|sub j'|e|] eqn:E; try discriminate;
          [ unfold unpack_error; destruct (length sub =? 2)%nat;
            discriminate
          | intros H; apply cursor_grows in E; apply IH in H;
            destruct H as [H Hl]; split; [lia | exact Hl]
          | intros H; injection H as ->; apply IH in E;
            destruct E as [E Hl]; split; [lia | exact Hl] ])
    ltac:(intros H; apply IH in H; destruct H as [H Hl];
          split; [lia | exact Hl])
    ltac:(first [ discriminate
                | intros H; injection H as <-;
                  split; [lia|]; exists line;
                  replace (i + 1 - 1) with i by lia; auto ]).
Qed.

End Stops.

(** X1: a call that returns a cursor returns one past its own, within
    the input, and the line just before the returned cursor starts with
    a closing brace. *)
Theorem returned_cursor_follows_close km lines i m j :
  __parse km lines i = RetTuple m j ->
  i < j /\ j <= length lines /\
  exists line, nth_error lines (j - 1) = Some line /\
               startswith "}" line = true.
Proof.
  unfold __parse, loop. intros H.
  apply parse_loop_returns_after_close in H.
  destruct H as (Hlt & line & Hl & Hc). split; [exact Hlt|].
  split; [|eauto].
  assert (j - 1 < length lines) by (apply nth_error_Some; congruence).
  lia.
Qed.

Lemma returned_cursor_witness :
  2 < 3 /\ 3 <= 4 /\
  exists line,
    nth_error [dq "k"; "{"; "} x"; dq "a" ++ " " ++ dq "b"] (3 - 1)
    = Some line /\ startswith "}" line = true.
Proof.
  apply (returned_cursor_follows_close
           None [dq "k"; "{"; "} x"; dq "a" ++ " " ++ dq "b"] 2 [] 3).
  reflexivity.
Defined.

(** X2: the line number carried by the error of an opening brace without
    key is the 1-based number of a line of the input, at or after the
    start of the call, and that line starts with an opening brace. *)
Theorem error_line_is_an_open_brace km lines i n :
  __parse km lines i = Raise (StructuralError n) ->
  i < n /\ n <= length lines /\
  exists line, nth_error lines (n - 1) = Some line /\
               startswith "{" line = true.
Proof.
  unfold __parse, loop. intros H.
  apply parse_loop_error_at_open in H.
  destruct H as (Hlt & line & Hl & Hc). split; [exact Hlt|].
  split; [|eauto].
  assert (n - 1 < length lines) by (apply nth_error_Some; congruence).
  lia.
Qed.

Lemma error_line_witness :
  0 < 3 /\ 3 <= 4 /\
  exists line,
    nth_error [dq "a"; "{"; "{ x"; "}"] (3 - 1) = Some line /\
    startswith "{" line = true.
Proof.
  apply (error_line_is_an_open_brace None [dq "a"; "{"; "{ x"; "}"] 0 3).
  reflexivity.
Defined.

(** X3: no run of [__parse] raises [AttributeError]: every [re.search]
    whose result is asked for a group comes after a [re.match] that
    makes it succeed, also in the two-line rule, where the two are run
    on different texts. *)
Theorem search_never_fails km lines i key m :
  loop km lines i key m <> Raise AttributeError.
Proof. unfold loop. apply no_attribute_error. Qed.


(** ** What the returned tree holds *)

Section TreeFacts.

Lemma all_keys_mapping P m :
  all_keys P (Mapping m) <->
  Forall (fun kv => P (fst kv) /\ all_keys P (snd kv)) m.
Proof.
  simpl. induction m as [|[k v] m IH]; split; intros H.
  - constructor.
  - exact I.
  - destruct H as (Hk & Hv & Hm). constructor; [now split | now apply IH].
  - inversion_clear H as [|? ? [Hk Hv] Hm]. repeat split; auto.
    now apply IH.
Qed.

Lemma setitem_all_keys P m k v :
  all_keys P (Mapping m) -> P k -> all_keys P v ->
  all_keys P (Mapping (setitem m k v)).
Proof.
  rewrite !all_keys_mapping. intros Hm Hk Hv.
  induction m as [|[k' v'] m IH]; simpl.
  - now repeat constructor.
  - inversion_clear Hm as [|? ? [Hk' Hv'] Hm'].
    destruct (String.eqb k' k); constructor; auto.
Qed.

Lemma setitem_flat m k s : flat m -> flat (setitem m k (Scalar s)).
Proof.
  unfold flat. intros H. induction m as [|[k' v'] m IH]; simpl.
  - repeat constructor. now exists s.
  - inversion_clear H as [|? ? Hv Hm].
    destruct (String.eqb k' k); constructor; auto. now exists s.
Qed.

Lemma grown_flat m m' : grown m m' -> flat m -> flat m'.
Proof.
  intros [->|(k & v & ->)] H; [exact H | now apply setitem_flat].
Qed.

(** A second assignment to a key undoes the first. *)
Lemma setitem_twice m k v v' :
  setitem (setitem m k v) k v' = setitem m k v'.
Proof.
  induction m as [|[k' w] m IH]; simpl.
  - now rewrite String.eqb_refl.
  - destruct (String.eqb k' k) eqn:E; simpl; rewrite E; [reflexivity|].
    now rewrite IH.
Qed.

End TreeFacts.

Section ModifiedKeys.

Variable km : option (string -> string).
Variable lines : list string.
Variable P : string -> Prop.
Hypothesis modified : forall k, P (__key_modifier k km).

Lemma parse_loop_all_keys fuel :
  forall i key m,
    all_keys P (Mapping m) ->
    (forall k, key = Some k -> P k) ->
    returned (fun m' => all_keys P (Mapping m'))
             (parse_loop km lines fuel i key m).
Proof.
  induction fuel as [|fuel IH]; intros i key m Hm Hkey; [exact I|].
  rewrite parse_loop_S. unfold iteration.
  destruct (nth_error lines i) as [line|]; [|exact Hm].
  destruct (startswith "{" line).
  - destruct key as [k|]; [|exact I].
    destruct (String.eqb k EmptyString); [exact I|].
    assert (Hsub : returned (fun m' => all_keys P (Mapping m'))
                            (parse_loop km lines fuel (i + 1) None []))
      by (apply IH; [exact I | discriminate]).
    destruct (parse_loop km lines fuel (i + 1) None []) as [sub|sub j|e|];
      try exact I.
    apply IH; [|exact Hkey].
    apply setitem_all_keys; auto.
  - destruct (startswith "}" line); [exact Hm|].
    destruct (match_key line).
    + destruct (search match_key line); [|exact I].
      apply IH; [exact Hm|]. intros k [= <-]. apply modified.
    + destruct (match_key_value line).
      * destruct (search match_key_value line) as [[k v]|]; [|exact I].
        apply IH; [|exact Hkey].
        apply setitem_all_keys; [exact Hm | apply modified | exact I].
      * destruct (nth_error lines (i + 1)) as [following|]; [|exact Hm].
        destruct (match_key_value (line ++ following)); [|now apply IH].
        destruct (search match_key_value (line ++ " " ++ following))
          as [[k v]|]; [|exact I].
        apply IH; [|exact Hkey].
        apply setitem_all_keys; [exact Hm | apply modified | exact I].
Qed.

End ModifiedKeys.

(** X4: the key modifier reaches every key of the tree: whatever holds
    of all values of the modifier holds of the key of every pair and of
    every block, at every level of what a call returns. *)
Theorem every_key_is_modified km lines i (P : string -> Prop) :
  (forall k, P (__key_modifier k km)) ->
  returned (fun m => all_keys P (Mapping m)) (__parse km lines i).
Proof.
  intros H. unfold __parse, loop.
  apply parse_loop_all_keys; [exact H | exact I | discriminate].
Qed.

Lemma every_key_is_modified_witness :
  returned
    (fun m => all_keys (fun k => startswith "x" k = true) (Mapping m))
    (__parse (Some (String.append "x"))
             [dq "a"; "{"; dq "b" ++ " " ++ dq "c"; "}"] 0).
Proof.
  apply (every_key_is_modified
           (Some (String.append "x"))
           [dq "a"; "{"; dq "b" ++ " " ++ dq "c"; "}"] 0
           (fun k => startswith "x" k = true)).
  intros k. simpl. now destruct k.
Defined.

(** X5: an input without a line that starts with a brace never raises:
    the call reads it to the end and returns a bare mapper, whose values
    are all strings. *)
Theorem input_without_braces_is_flat km lines i :
  (forall line, In line lines ->
                startswith "{" line = false /\ startswith "}" line = false) ->
  exists m, __parse km lines i = RetMapper m /\ flat m.
Proof.
  intros Hb. unfold __parse.
  assert (G : forall d j key m,
             length lines - j <= d -> flat m ->
             exists m', loop km lines j key m = RetMapper m' /\ flat m').
  { induction d as [|d IH]; intros j key m Hd Hm.
    - exists m. split; [|exact Hm]. apply loop_end, nth_error_None. lia.
    - destruct (nth_error lines j) as [line|] eqn:Hj;
        [|exists m; split; [now apply loop_end | exact Hm]].
      assert (Hlt : j < length lines) by (apply nth_error_Some; congruence).
      destruct (Hb line (nth_error_In _ _ Hj)) as [Ho Hc].
      destruct (match_key line) as [k|] eqn:Ek.
      + destruct (loop_token km lines j key m line Hj Ho Hc) as [key' ->];
          [congruence|]. apply IH; [lia | exact Hm].
      + destruct (loop_inert km lines j key m line Hj)
          as (m' & Hg & [-> | [_ ->]]).
        * unfold inert. now rewrite Ho, Hc, Ek.
        * apply IH; [lia | now apply (grown_flat m)].
        * exists m. now split. }
  apply (G (length lines)); [lia | constructor].
Qed.

Lemma input_without_braces_witness :
  exists m,
    __parse None [dq "a"; dq "b" ++ " " ++ dq "c"; "junk"] 0 = RetMapper m
    /\ flat m.
Proof.
  apply (input_without_braces_is_flat
           None [dq "a"; dq "b" ++ " " ++ dq "c"; "junk"] 0).
  intros line [<-|[<-|[<-|[]]]]; split; reflexivity.
Defined.

(** X6: the pending key outlives the block it names.  Of two blocks in a
    row after one key only the second is kept: the first is bound and
    then replaced under the same key. *)
Theorem second_block_replaces_first km lines i k m open1 sub1 j open2 sub2 j2 :
  nth_error lines i = Some open1 -> startswith "{" open1 = true ->
  falsy (Some k) = false ->
  __parse km lines (i + 1) = RetTuple sub1 j ->
  nth_error lines j = Some open2 -> startswith "{" open2 = true ->
  __parse km lines (j + 1) = RetTuple sub2 j2 ->
  loop km lines i (Some k) m =
  loop km lines j2 (Some k) (setitem m k (Mapping sub2)).
Proof.
  intros Hi Ho Hk H1 Hj Ho2 H2. simpl in Hk.
  rewrite (loop_open km lines i k m open1) by auto. rewrite H1.
  rewrite (loop_open km lines j k _ open2) by auto. rewrite H2.
  now rewrite setitem_twice.
Qed.

Lemma second_block_witness :
  loop None [dq "a"; "{"; dq "x" ++ " " ++ dq "1"; "}"; "{"; "}"]
       1 (Some "a") []
  = loop None [dq "a"; "{"; dq "x" ++ " " ++ dq "1"; "}"; "{"; "}"]
         6 (Some "a") (setitem [] "a" (Mapping [])).
Proof.
  apply (second_block_replaces_first
           None [dq "a"; "{"; dq "x" ++ " " ++ dq "1"; "}"; "{"; "}"]
           1 "a" [] "{" [("x", Scalar "1")] 4 "{" [] 6);
    reflexivity.
Defined.

(** X7: a block whose key is the empty token is refused: the empty
    string is a key that is not set, and the opening brace after it
    raises with its own line number. *)
Theorem empty_key_is_no_key km lines i key m q open :
  is_quote q = true -> __key_modifier EmptyString km = EmptyString ->
  nth_error lines i = Some (quoted q EmptyString) ->
  nth_error lines (i + 1) = Some open -> startswith "{" open = true ->
  loop km lines i key m = Raise (StructuralError (i + 1 + 1)).
Proof.
  intros Hq Hkm Hi Hn Ho.
  rewrite (loop_quoted km lines i key m q EmptyString) by auto.
  rewrite Hkm.
  now apply (loop_open_no_key km lines (i + 1) _ m open).
Qed.

Lemma empty_key_witness :
  loop None [dq EmptyString; "{"; "}"] 0 None []
  = Raise (StructuralError (0 + 1 + 1)).
Proof.
  apply (empty_key_is_no_key None [dq EmptyString; "{"; "}"] 0 None []
                             DQ "{");
    reflexivity.
Defined.


(** ** The languages of the two patterns *)

Section Languages.

Lemma is_dot_false c : is_dot c = false -> c = NL.
Proof.
  unfold is_dot. intros H. apply negb_false_iff in H.
  now apply Ascii.eqb_eq.
Qed.

Lemma match_key_inv s k :
  match_key s = Some k ->
  exists q rest,
    s = String q (k ++ String q rest) /\ is_quote q = true /\
    free_of q k = true /\ (rest = EmptyString \/ exists r, rest = String NL r).
Proof.
  unfold match_key. intros H.
  destruct s as [|q s1]; [discriminate|].
  destruct (is_quote q) eqn:Hq; [|discriminate].
  apply star_not_ref_inv in H. destruct H as (key & s2 & -> & Hk & H).
  destruct s2 as [|c s3]; [discriminate|]. simpl in H.
  destruct (c =? q)%char eqn:Ec; [|discriminate].
  apply Ascii.eqb_eq in Ec. subst c.
  exists q, s3. destruct s3 as [|d s4]; simpl in H.
  - injection H as ->. auto.
  - destruct (is_dot d) eqn:Ed; [discriminate|]. injection H as ->.
    apply is_dot_false in Ed. subst d. repeat split; eauto.
Qed.

End Languages.

(** X8: on a line without line feed the key pattern matches exactly the
    lone tokens, a text without the quote between two quotes of one
    kind, and captures the text between the quotes. *)
Theorem key_pattern_language s k :
  no_newline s = true ->
  (match_key s = Some k <->
   exists q, is_quote q = true /\ free_of q k = true /\ s = quoted q k).
Proof.
  intros Hs. split.
  - intros H. apply match_key_inv in H.
    destruct H as (q & rest & -> & Hq & Hk & Hrest).
    exists q. repeat split; auto. unfold quoted.
    destruct Hrest as [->|[r ->]]; [reflexivity|].
    simpl in Hs. apply andb_true_iff in Hs. destruct Hs as [_ Hs].
    rewrite no_newline_app in Hs. apply andb_true_iff in Hs.
    destruct Hs as [_ Hs]. simpl in Hs.
    apply andb_true_iff in Hs. destruct Hs as [_ Hs]. discriminate.
  - intros (q & Hq & Hk & ->). now apply match_key_quoted.
Qed.

Lemma key_pattern_witness : match_key (sq "a b") = Some "a b".
Proof.
  apply (key_pattern_language (sq "a b") "a b"); [reflexivity|].
  exists SQ. repeat split.
Defined.

(** X9: the key/value pattern matches exactly the lines that start with
    a token, white space or none, and a second text that lacks the quote
    of the first token, opened by either quote and closed by the quote
    of the first token; it captures the two texts. *)
Theorem key_value_pattern_language s k v :
  match_key_value s = Some (k, v) <->
  exists q ws q2 tail,
    s = two_tokens q k ws q2 v ++ tail /\
    is_quote q = true /\ free_of q k = true /\ all_space ws = true /\
    is_quote q2 = true /\ free_of q v = true.
Proof.
  split.
  - apply match_key_value_inv.
  - intros (q & ws & q2 & tail & -> & Hq & Hk & Hws & Hq2 & Hv).
    now apply match_key_value_two_tokens.
Qed.

Lemma key_value_pattern_witness :
  match_key_value (two_tokens DQ "k" "  " SQ "v" ++ " rest")
  = Some ("k", "v").
Proof.
  apply (key_value_pattern_language
           (two_tokens DQ "k" "  " SQ "v" ++ " rest") "k" "v").
  exists DQ, "  ", SQ, " rest". repeat split.
Defined.

(** ** Files of one-line pairs *)

Section PairFiles.

(** The two-token rule on a line of two tokens. *)
Lemma loop_two_tokens km lines i key m q k ws q2 v tail :
  is_quote q = true -> free_of q k = true ->
  all_space ws = true -> no_newline ws = true ->
  is_quote q2 = true -> free_of q v = true ->
  nth_error lines i = Some (two_tokens q k ws q2 v ++ tail) ->
  loop km lines i key m =
  loop km lines (i + 1) key (setitem m (__key_modifier k km) (Scalar v)).
Proof.
  intros Hq Hk Hws Hnl Hq2 Hv Hi.
  apply (loop_key_value km lines i key m _ k v Hi).
  - rewrite two_tokens_app. now apply quote_not_brace.
  - rewrite two_tokens_app. now apply quote_not_brace.
  - rewrite two_tokens_app. rewrite match_key_token by assumption.
    destruct ws as [|c ws]; simpl.
    + now rewrite (quote_is_dot q2 Hq2).
    + simpl in Hnl. apply andb_true_iff in Hnl. now rewrite (proj1 Hnl).
  - now apply match_key_value_two_tokens.
Qed.

Lemma append_empty (s : string) : s ++ EmptyString = s.
Proof. induction s as [|c s IH]; simpl; [reflexivity | now rewrite IH]. Qed.

Lemma loop_pair_lines km (pairs : list (string * string)) :
  Forall (fun kv => free_of DQ (fst kv) = true /\ free_of DQ (snd kv) = true)
         pairs ->
  forall pre key m,
    loop km (pre ++ map pair_line pairs)%list (length pre) key m =
    RetMapper
      (fold_left (fun m kv => setitem m (__key_modifier (fst kv) km)
                                      (Scalar (snd kv))) pairs m).
Proof.
  induction 1 as [|[k v] pairs [Hk Hv] Hrest IH]; intros pre key m; simpl.
  - apply loop_end. apply nth_error_None. rewrite app_nil_r. lia.
  - rewrite (loop_two_tokens km _ (length pre) key m DQ k " " DQ v EmptyString);
      auto.
    + replace (pre ++ pair_line (k, v) :: map pair_line pairs)%list
        with ((pre ++ [pair_line (k, v)]) ++ map pair_line pairs)%list
        by (now rewrite <- app_assoc).
      replace (length pre + 1) with (length (pre ++ [pair_line (k, v)]))
        by (rewrite length_app; reflexivity).
      apply IH.
    + rewrite nth_error_app2 by lia. rewrite Nat.sub_diag. simpl.
      now rewrite append_empty.
Qed.

Lemma getitem_setitem_other m k v k' :
  k <> k' -> getitem (setitem m k v) k' = getitem m k'.
Proof.
  intros Hne. induction m as [|[k0 w] m IH]; simpl.
  - apply String.eqb_neq in Hne. now rewrite Hne.
  - destruct (String.eqb k0 k) eqn:E; simpl.
    + apply String.eqb_eq in E. subst k0.
      apply String.eqb_neq in Hne. now rewrite Hne.
    + destruct (String.eqb k0 k'); [reflexivity | exact IH].
Qed.

Lemma getitem_bind_all pairs :
  forall m k,
    getitem (bind_all pairs m) k =
    match last_value pairs k with
    | Some v => Some (Scalar v)
    | None => getitem m k
    end.
Proof.
  unfold bind_all.
  induction pairs as [|[k' v] pairs IH]; intros m k; simpl; [reflexivity|].
  rewrite IH. destruct (last_value pairs k); [reflexivity|].
  destruct (String.eqb k' k) eqn:E.
  - apply String.eqb_eq in E. subst k'. apply getitem_setitem.
  - apply String.eqb_neq in E. now apply getitem_setitem_other.
Qed.

End PairFiles.

(** X10: on a file of one-line pairs [parse] binds the pairs in order,
    and a subscript of the object gives the value of the last line with
    that key, or raises [KeyError] when no line has it. *)
Theorem last_pair_wins pairs :
  Forall (fun kv => free_of DQ (fst kv) = true /\ free_of DQ (snd kv) = true)
         pairs ->
  parse (map pair_line pairs) = RetMapper (bind_all pairs []) /\
  forall k,
    __getitem__ (StoredMapper (bind_all pairs [])) k =
    match last_value pairs k with
    | Some v => Ok (Scalar v)
    | None => Err (KeyError k)
    end.
Proof.
  intros H. split.
  - unfold parse, __parse. apply (loop_pair_lines None pairs H [] None []).
  - intros k. unfold __getitem__. rewrite getitem_bind_all.
    now destruct (last_value pairs k).
Qed.

Lemma last_pair_wins_witness :
  parse (map pair_line [("a", "1"); ("b", "2"); ("a", "3")])
  = RetMapper (bind_all [("a", "1"); ("b", "2"); ("a", "3")] []) /\
  forall k,
    __getitem__
      (StoredMapper (bind_all [("a", "1"); ("b", "2"); ("a", "3")] [])) k =
    match last_value [("a", "1"); ("b", "2"); ("a", "3")] k with
    | Some v => Ok (Scalar v)
    | None => Err (KeyError k)
    end.
Proof.
  apply (last_pair_wins [("a", "1"); ("b", "2"); ("a", "3")]).
  repeat constructor.
Defined.


(** ** Reading the file *)

Section Reading.

Lemma lstrip_all_space s : all_space s = true -> lstrip s = EmptyString.
Proof.
  induction s as [|c s IH]; simpl; [reflexivity|].
  intros H. apply andb_true_iff in H. destruct H as [-> H]. auto.
Qed.

Lemma lstrip_app_space p s : all_space p = true -> lstrip (p ++ s) = lstrip s.
Proof.
  induction p as [|c p IH]; simpl; [reflexivity|].
  intros H. apply andb_true_iff in H. destruct H as [-> H]. auto.
Qed.

Lemma rstrip_all_space s : all_space s = true -> rstrip s = EmptyString.
Proof.
  induction s as [|c s IH]; simpl; [reflexivity|].
  intros H. apply andb_true_iff in H. destruct H as [-> H].
  now rewrite IH.
Qed.

Lemma rstrip_app_space s p : all_space p = true -> rstrip (s ++ p) = rstrip s.
Proof.
  intros H. induction s as [|c s IH]; simpl.
  - now apply rstrip_all_space.
  - now rewrite IH.
Qed.

(** What [lstrip] leaves does not start with white space. *)
Lemma lstrip_fixed s : lstrip (lstrip s) = lstrip s.
Proof.
  induction s as [|c s IH]; simpl; [reflexivity|].
  destruct (is_space c) eqn:E; [exact IH|]. simpl. now rewrite E.
Qed.

Lemma lstrip_split s :
  lstrip s = EmptyString \/
  exists c t, lstrip s = String c t /\ is_space c = false.
Proof.
  induction s as [|c s IH]; simpl; [now left|].
  destruct (is_space c) eqn:E; [exact IH|]. right. eauto.
Qed.

Lemma rstrip_fixed s : rstrip (rstrip s) = rstrip s.
Proof.
  induction s as [|c s IH]; simpl; [reflexivity|].
  destruct (rstrip s) as [|d r] eqn:E.
  - destruct (is_space c) eqn:Ec; simpl; [reflexivity | now rewrite Ec].
  - simpl in IH |- *. now rewrite IH.
Qed.

Lemma rstrip_keeps_head c t :
  is_space c = false -> exists r, rstrip (String c t) = String c r.
Proof.
  intros E. simpl. destruct (rstrip t); [rewrite E|]; eauto.
Qed.

Lemma strip_fixed s : strip (strip s) = strip s.
Proof.
  unfold strip. destruct (lstrip_split s) as [->|(c & t & -> & E)];
    [reflexivity|].
  destruct (rstrip_keeps_head c t E) as [r Hr].
  assert (Hl : lstrip (rstrip (String c t)) = rstrip (String c t))
    by (rewrite Hr; simpl; now rewrite E).
  rewrite Hl. apply rstrip_fixed.
Qed.

Lemma strip_padded p s p' :
  all_space p = true -> all_space p' = true ->
  strip (p ++ s ++ p') = strip s.
Proof.
  intros Hp Hp'. unfold strip. rewrite lstrip_app_space by assumption.
  clear p Hp. induction s as [|c s IH]; simpl.
  - rewrite lstrip_all_space by assumption. reflexivity.
  - destruct (is_space c); [exact IH|].
    change (String c (s ++ p')) with (String c s ++ p').
    now apply rstrip_app_space.
Qed.

Lemma strip_line_end s : strip (s ++ String NL EmptyString) = strip s.
Proof.
  rewrite <- (strip_padded EmptyString s (String NL EmptyString));
    reflexivity.
Qed.

Lemma no_breaks_no_newline s : no_breaks s = true -> no_newline s = true.
Proof.
  induction s as [|c s IH]; simpl; [reflexivity|].
  intros H. apply andb_true_iff in H. destruct H as [H Hs].
  apply andb_true_iff in H. destruct H as [Hn _].
  unfold is_dot. now rewrite Hn, IH.
Qed.

Lemma no_breaks_lstrip s : no_breaks s = true -> no_breaks (lstrip s) = true.
Proof.
  induction s as [|c s IH]; simpl; [reflexivity|].
  intros H. destruct (is_space c); [|exact H].
  apply andb_true_iff in H. now apply IH.
Qed.

Lemma no_breaks_rstrip s : no_breaks s = true -> no_breaks (rstrip s) = true.
Proof.
  induction s as [|c s IH]; simpl; [reflexivity|].
  intros H. apply andb_true_iff in H. destruct H as [Hc Hs].
  specialize (IH Hs). destruct (rstrip s) as [|d r].
  - destruct (is_space c); [reflexivity|]. simpl. now rewrite Hc.
  - simpl in IH |- *. now rewrite Hc, IH.
Qed.

Lemma no_breaks_strip s : no_breaks s = true -> no_breaks (strip s) = true.
Proof. intros H. now apply no_breaks_rstrip, no_breaks_lstrip. Qed.

(** A line of [readlines] is a text without line end, with a line feed
    after it or, for the last one, without. *)
Lemma readlines_shape content :
  Forall (fun l => exists body,
              no_breaks body = true /\
              (l = body \/ l = body ++ String NL EmptyString))
         (readlines content).
Proof.
  induction content as [|c s IH]; simpl; [constructor|].
  assert (Hnl : Forall (fun l => exists body,
                          no_breaks body = true /\
                          (l = body \/ l = body ++ String NL EmptyString))
                       (String NL EmptyString :: readlines s)).
  { constructor; [|exact IH]. exists EmptyString. auto. }
  destruct (c =? NL)%char eqn:En; [exact Hnl|].
  destruct (c =? CR)%char eqn:Ec.
  - destruct s as [|d s']; [exact Hnl|].
    destruct (d =? NL)%char; [exact IH | exact Hnl].
  - destruct (readlines s) as [|l ls].
    + repeat constructor. exists (String c EmptyString). simpl.
      rewrite En, Ec. auto.
    + inversion_clear IH as [|? ? (body & Hb & Hl) Hls].
      constructor; [|exact Hls].
      exists (String c body). simpl. rewrite En, Ec, Hb.
      destruct Hl as [->| ->]; auto.
Qed.

(** A text without line end, then a line end, then more text: the first
    line is the text with a line feed. *)
Lemma readlines_line l rest :
  no_breaks l = true ->
  readlines (l ++ String NL rest) = (l ++ String NL EmptyString) :: readlines rest
  /\ readlines (l ++ String CR (String NL rest))
     = (l ++ String NL EmptyString) :: readlines rest.
Proof.
  induction l as [|c l IH]; intros H.
  - split; reflexivity.
  - simpl in H. apply andb_true_iff in H. destruct H as [H Hl].
    apply andb_true_iff in H. destruct H as [Hn Hc].
    apply negb_true_iff in Hn, Hc. destruct (IH Hl) as [IH1 IH2].
    split; simpl; rewrite Hn, Hc; [rewrite IH1 | rewrite IH2]; reflexivity.
Qed.

Lemma file_lines_unlines ls :
  Forall (fun l => no_breaks l = true) ls ->
  file_lines (unlines (String NL EmptyString) ls) = map strip ls /\
  file_lines (unlines (String CR (String NL EmptyString)) ls) = map strip ls.
Proof.
  unfold file_lines. induction 1 as [|l ls Hl Hls [IH1 IH2]]; simpl;
    [split; reflexivity|].
  destruct (readlines_line l (unlines (String NL EmptyString) ls) Hl)
    as [E1 _].
  destruct (readlines_line
              l (unlines (String CR (String NL EmptyString)) ls) Hl)
    as [_ E2].
  simpl. rewrite E1, E2. simpl. rewrite IH1, IH2, strip_line_end. auto.
Qed.

End Reading.

(** X11: every line that [parse(filename)] hands to [__parse] is
    stripped: stripping it again changes nothing, and it holds no line
    feed and no carriage return. *)
Theorem file_lines_are_stripped content line :
  In line (file_lines content) ->
  strip line = line /\ no_breaks line = true /\ no_newline line = true.
Proof.
  unfold file_lines. intros H. apply in_map_iff in H.
  destruct H as (raw & <- & Hraw).
  pose proof (readlines_shape content) as Hs.
  rewrite Forall_forall in Hs. destruct (Hs raw Hraw) as (body & Hb & Hl).
  assert (E : strip raw = strip body)
    by (destruct Hl as [->| ->]; [reflexivity | apply strip_line_end]).
  split; [apply strip_fixed|]. rewrite E.
  split; [now apply no_breaks_strip|].
  now apply no_breaks_no_newline, no_breaks_strip.
Qed.

Lemma file_lines_are_stripped_witness :
  strip (dq "k") = dq "k" /\ no_breaks (dq "k") = true /\
  no_newline (dq "k") = true.
Proof.
  apply (file_lines_are_stripped
           (String "009" (dq "k" ++ String CR (String NL "{")))).
  left. reflexivity.
Defined.

(** X12: a file whose lines end in a carriage return and a line feed is
    read as the same file with lines that end in a line feed: in both
    cases [__parse] receives the lines, each stripped. *)
Theorem line_ends_read_alike ls :
  Forall (fun l => no_breaks l = true) ls ->
  parse_text (unlines (String NL EmptyString) ls) = parse (map strip ls) /\
  parse_text (unlines (String CR (String NL EmptyString)) ls)
  = parse (map strip ls).
Proof.
  intros H. unfold parse_text.
  destruct (file_lines_unlines ls H) as [-> ->]. auto.
Qed.

Lemma line_ends_read_alike_witness :
  parse_text (unlines (String NL EmptyString) [dq "a"; "  {"; "} "])
  = parse (map strip [dq "a"; "  {"; "} "]) /\
  parse_text (unlines (String CR (String NL EmptyString))
                      [dq "a"; "  {"; "} "])
  = parse (map strip [dq "a"; "  {"; "} "]).
Proof.
  apply (line_ends_read_alike [dq "a"; "  {"; "} "]).
  repeat constructor.
Defined.

(** X13: white space at the start and at the end of the lines of a file
    does not change what is parsed. *)
Theorem indentation_is_ignored ts :
  Forall (fun t => no_breaks (padded t) = true /\
                   no_breaks (core t) = true /\
                   all_space (fst (fst t)) = true /\
                   all_space (snd t) = true) ts ->
  parse_text (unlines (String NL EmptyString) (map padded ts))
  = parse_text (unlines (String NL EmptyString) (map core ts)).
Proof.
  intros H. unfold parse_text.
  assert (Hp : Forall (fun l => no_breaks l = true) (map padded ts)).
  { apply Forall_map. eapply Forall_impl; [|exact H]. now intros t [? _]. }
  assert (Hc : Forall (fun l => no_breaks l = true) (map core ts)).
  { apply Forall_map. eapply Forall_impl; [|exact H].
    now intros t (_ & ? & _). }
  rewrite (proj1 (file_lines_unlines _ Hp)), (proj1 (file_lines_unlines _ Hc)).
  f_equal. rewrite !map_map. apply map_ext_in. intros t Ht.
  rewrite Forall_forall in H. destruct (H t Ht) as (_ & _ & H1 & H2).
  unfold padded, core. now apply strip_padded.
Qed.

Lemma indentation_is_ignored_witness :
  parse_text (unlines (String NL EmptyString) (map padded padded_example))
  = parse_text (unlines (String NL EmptyString) (map core padded_example)).
Proof.
  apply (indentation_is_ignored padded_example).
  repeat constructor.
Defined.


(** ** [locate_tf2_dir] *)

Section LocateFacts.

Variable open_text : string -> option string.
Variable isdir : string -> bool.
Variable isfile : string -> bool.

Let scan := scan_libraries isdir isfile.
Let holds := holds_tf2 isdir isfile.

(** Unfolds one round of the loop over the library folders. *)
Lemma scan_step x rest :
  scan (x :: rest) =
  (path <- subscript x "path" ;;
   apps_tree <- subscript x "apps" ;;
   if member "440" apps_tree then
     tf2_folder <- tf2_folder_of path ;;
     if isdir tf2_folder && isfile (tf2_folder ++ "/hl2_linux")
     then Ok (Some tf2_folder)
     else scan rest
   else scan rest).
Proof. reflexivity. Qed.

(** A round that goes on to the next folder has not found the game in
    this one. *)
Lemma scan_passed x rest r :
  scan (x :: rest) = r -> (forall e, r <> Err e) -> r <> Stuck ->
  (exists folder, r = Ok (Some folder) /\ holds x folder) \/
  (scan rest = r /\ forall f, ~ holds x f).
Proof.
  rewrite scan_step. intros H Herr Hstuck.
  destruct (subscript x "path") as [path| |] eqn:Ep; cbn [bind] in H;
    [| now elim (Herr e) | now elim Hstuck].
  destruct (subscript x "apps") as [apps| |] eqn:Ea; cbn [bind] in H;
    [| now elim (Herr e) | now elim Hstuck].
  destruct (member "440" apps) eqn:Em.
  - destruct path as [p|sub]; cbn [bind tf2_folder_of] in H;
      [|now elim (Herr (Py TypeError))].
    remember (path_join p ["steamapps"; "common"; "Team Fortress 2"])
      as folder eqn:Ef.
    destruct (isdir folder && isfile (folder ++ "/hl2_linux")) eqn:Efs.
    + left. exists folder. split; [symmetry; exact H|].
      apply andb_true_iff in Efs. destruct Efs as [Hd Hf].
      exists p, apps. auto 10.
    + right. split; [exact H|].
      intros f (p' & apps' & Hp & Ha & _ & -> & Hd & Hf).
      rewrite Ep in Hp. injection Hp as <-. rewrite <- Ef in Hd, Hf.
      rewrite Hd, Hf in Efs. discriminate.
  - right. split; [exact H|].
    intros f (p' & apps' & Hp & Ha & Hm & _).
    rewrite Ea in Ha. injection Ha as <-. congruence.
Qed.

Lemma scan_found xs folder :
  scan xs = Ok (Some folder) ->
  exists pre x post,
    xs = (pre ++ x :: post)%list /\ holds x folder /\
    Forall (fun y => forall f, ~ holds y f) pre.
Proof.
  induction xs as [|x rest IH]; intros H; [discriminate|].
  destruct (scan_passed x rest _ H) as [(f & [= <-] & Hx)|[Hrest Hno]];
    try discriminate.
  - exists [], x, rest. auto.
  - destruct (IH Hrest) as (pre & y & post & -> & Hy & Hpre).
    exists (x :: pre), y, post. auto.
Qed.

Lemma scan_not_found xs :
  scan xs = Ok None -> Forall (fun y => forall f, ~ holds y f) xs.
Proof.
  induction xs as [|x rest IH]; intros H; [constructor|].
  destruct (scan_passed x rest _ H) as [(f & [=] & _)|[Hrest Hno]];
    try discriminate.
  constructor; auto.
Qed.

Lemma scan_no_parse_error xs n : scan xs <> Err (Py (StructuralError n)).
Proof.
  induction xs as [|x rest IH]; [discriminate|].
  rewrite scan_step.
  destruct x as [s|m]; simpl; [discriminate|].
  destruct (getitem m "path") as [path|]; simpl; [|discriminate].
  destruct (getitem m "apps") as [apps|]; simpl; [|discriminate].
  destruct (member "440" apps); [|exact IH].
  destruct path as [p|sub]; simpl; [|discriminate].
  destruct (isdir _ && isfile _); [discriminate | exact IH].
Qed.

(** What [locate_tf2_dir] has read when it comes to its loop. *)
Lemma locate_reads vdf_file r :
  locate_tf2_dir open_text isdir isfile vdf_file = Ok r ->
  exists content m libs,
    open_text vdf_file = Some content /\
    parse_text content = RetMapper m /\
    getitem m "libraryfolders" = Some (Mapping libs) /\
    scan (map snd libs) = Ok r.
Proof.
  unfold locate_tf2_dir, KeyValues_init. intros H.
  destruct (open_text vdf_file) as [content|]; [|discriminate].
  destruct (parse_text content) as [m|m i|e|] eqn:Ep; simpl in H;
    try discriminate.
  destruct (getitem m "libraryfolders") as [root|] eqn:Eg; simpl in H;
    [|discriminate].
  destruct root as [s|libs]; simpl in H; [discriminate|].
  exists content, m, libs. auto.
Qed.

End LocateFacts.

(** X14: the folder that [locate_tf2_dir] returns comes from the first
    library folder of the file that holds the game: a directory below
    the path of that library, with the file [hl2_linux] in it, under a
    library whose [apps] has [440]; no library folder before it holds
    the game. *)
Theorem located_folder_holds_tf2 open_text isdir isfile vdf_file folder :
  locate_tf2_dir open_text isdir isfile vdf_file = Ok (Some folder) ->
  exists content m libs pre x post,
    open_text vdf_file = Some content /\
    parse_text content = RetMapper m /\
    getitem m "libraryfolders" = Some (Mapping libs) /\
    map snd libs = (pre ++ x :: post)%list /\
    holds_tf2 isdir isfile x folder /\
    Forall (fun y => forall f, ~ holds_tf2 isdir isfile y f) pre.
Proof.
  intros H. apply locate_reads in H.
  destruct H as (content & m & libs & Ho & Hp & Hg & Hs).
  apply scan_found in Hs. destruct Hs as (pre & x & post & E & Hx & Hpre).
  exists content, m, libs, pre, x, post. auto 10.
Qed.

(** X15: when [locate_tf2_dir] returns [None], no library folder of the
    file holds the game. *)
Theorem nothing_located_nothing_held open_text isdir isfile vdf_file :
  locate_tf2_dir open_text isdir isfile vdf_file = Ok None ->
  exists content m libs,
    open_text vdf_file = Some content /\
    parse_text content = RetMapper m /\
    getitem m "libraryfolders" = Some (Mapping libs) /\
    Forall (fun y => forall f, ~ holds_tf2 isdir isfile y f)
           (map snd libs).
Proof.
  intros H. apply locate_reads in H.
  destruct H as (content & m & libs & Ho & Hp & Hg & Hs).
  apply scan_not_found in Hs. exists content, m, libs. auto.
Qed.

(** X16: the error of an opening brace without key that leaves
    [locate_tf2_dir] comes from the parser and names a line of the file:
    the stripped line of that number starts with an opening brace. *)
Theorem located_error_names_a_line open_text isdir isfile vdf_file n :
  locate_tf2_dir open_text isdir isfile vdf_file
  = Err (Py (StructuralError n)) ->
  exists content line,
    open_text vdf_file = Some content /\
    nth_error (file_lines content) (n - 1) = Some line /\
    startswith "{" line = true.
Proof.
  unfold locate_tf2_dir, KeyValues_init. intros H.
  destruct (open_text vdf_file) as [content|]; [|discriminate].
  destruct (parse_text content) as [m|m i|e|] eqn:Ep; simpl in H;
    try discriminate.
  - destruct (getitem m "libraryfolders") as [root|]; simpl in H;
      [|discriminate].
    destruct root as [s|libs]; simpl in H; [discriminate|].
    now apply scan_no_parse_error in H.
  - injection H as ->. unfold parse_text, parse in Ep.
    unfold __parse, loop in Ep. apply parse_loop_error_at_open in Ep.
    destruct Ep as (_ & line & Hl & Ho). exists content, line. auto.
Qed.


Lemma located_folder_witness :
  exists content m libs pre x post,
    example_open "/s/steamapps/libraryfolders.vdf" = Some content /\
    parse_text content = RetMapper m /\
    getitem m "libraryfolders" = Some (Mapping libs) /\
    map snd libs = (pre ++ x :: post)%list /\
    holds_tf2 (fun _ => true) (fun _ => true) x
              "/lib/steamapps/common/Team Fortress 2" /\
    Forall (fun y => forall f,
                ~ holds_tf2 (fun _ => true) (fun _ => true) y f) pre.
Proof.
  apply (located_folder_holds_tf2
           example_open (fun _ => true) (fun _ => true)
           "/s/steamapps/libraryfolders.vdf"
           "/lib/steamapps/common/Team Fortress 2").
  reflexivity.
Defined.

Lemma nothing_located_witness :
  exists content m libs,
    example_open "/s/steamapps/libraryfolders.vdf" = Some content /\
    parse_text content = RetMapper m /\
    getitem m "libraryfolders" = Some (Mapping libs) /\
    Forall (fun y => forall f,
                ~ holds_tf2 (fun _ => false) (fun _ => true) y f)
           (map snd libs).
Proof.
  apply (nothing_located_nothing_held
           example_open (fun _ => false) (fun _ => true)
           "/s/steamapps/libraryfolders.vdf").
  reflexivity.
Defined.

Lemma located_error_witness :
  exists content line,
    (fun _ : string => Some ("junk" ++ String NL "  { ")) "f" = Some content /\
    nth_error (file_lines content) (2 - 1) = Some line /\
    startswith "{" line = true.
Proof.
  apply (located_error_names_a_line
           (fun _ => Some ("junk" ++ String NL "  { "))
           (fun _ => true) (fun _ => true) "f" 2).
  reflexivity.
Defined.

(** ** The game folder *)

Section GameFolder.

Lemma endswith_last a x c :
  endswith (String a EmptyString) (x ++ String c EmptyString)
  = (a =? c)%char.
Proof.
  induction x as [|d x IH]; simpl.
  - destruct (a =? c)%char; reflexivity.
  - rewrite IH. destruct (a =? d)%char; [|reflexivity].
    destruct (x ++ String c EmptyString) eqn:E; [|reflexivity].
    now destruct x.
Qed.

Lemma append_not_empty x c y :
  String.eqb (x ++ String c y) EmptyString = false.
Proof. now destruct x. Qed.

Lemma slash_not_dot_start b :
  startswith "/" (String "s" b) = false /\
  startswith "/" (String "c" b) = false /\
  startswith "/" (String "T" b) = false.
Proof. repeat split. Qed.

End GameFolder.

(** X17: the game folder is the path of the library with
    [steamapps/common/Team Fortress 2] after it, and one separator
    between the two unless the path is empty or ends with a separator
    already. *)
Theorem game_folder_below_library p :
  tf2_folder_of (Scalar p) =
  Ok (if String.eqb p EmptyString || endswith "/" p
      then p ++ "steamapps/common/Team Fortress 2"
      else p ++ "/steamapps/common/Team Fortress 2").
Proof.
  unfold tf2_folder_of, path_join. cbn [fold_left].
  assert (E : path_join_step p "steamapps" =
              (if String.eqb p EmptyString || endswith "/" p
               then p ++ EmptyString else p ++ "/") ++ "steamapps").
  { unfold path_join_step.
    rewrite (proj1 (slash_not_dot_start _)).
    destruct (String.eqb p EmptyString || endswith "/" p);
      now rewrite append_assoc. }
  rewrite E. clear E.
  set (q := if String.eqb p EmptyString || endswith "/" p
            then p ++ EmptyString else p ++ "/").
  assert (E1 : path_join_step (q ++ "steamapps") "common"
               = q ++ "steamapps/common").
  { unfold path_join_step.
    rewrite (proj1 (proj2 (slash_not_dot_start _))).
    rewrite append_not_empty.
    change "steamapps" with ("steamapp" ++ "s").
    rewrite <- append_assoc, endswith_last. simpl.
    now rewrite !append_assoc. }
  rewrite E1. clear E1.
  assert (E2 : path_join_step (q ++ "steamapps/common") "Team Fortress 2"
               = q ++ "steamapps/common/Team Fortress 2").
  { unfold path_join_step.
    rewrite (proj2 (proj2 (slash_not_dot_start _))).
    rewrite append_not_empty.
    change "steamapps/common" with ("steamapps/commo" ++ "n").
    rewrite <- append_assoc, endswith_last. simpl.
    now rewrite !append_assoc. }
  rewrite E2. unfold q.
  destruct (String.eqb p EmptyString || endswith "/" p);
    now rewrite append_assoc.
Qed.


(** ** From the text of the file to the game folder *)

Section Layout.

Lemma loop_pair_line km lines i key m k v :
  free_of DQ k = true -> free_of DQ v = true ->
  nth_error lines i = Some (pair_line (k, v)) ->
  loop km lines i key m =
  loop km lines (i + 1) key (setitem m (__key_modifier k km) (Scalar v)).
Proof.
  intros Hk Hv Hi.
  apply (loop_two_tokens km lines i key m DQ k " " DQ v EmptyString);
    auto.
  unfold pair_line in Hi. simpl in Hi. now rewrite append_empty.
Qed.

(** The tree of a file of the usual layout. *)
Lemma parse_vdf_lines label path app size :
  free_of DQ label = true -> falsy (Some label) = false ->
  free_of DQ path = true -> free_of DQ app = true ->
  free_of DQ size = true ->
  parse (vdf_lines label path app size) =
  RetMapper
    [("libraryfolders",
      Mapping [(label,
                Mapping [("path", Scalar path);
                         ("apps", Mapping [(app, Scalar size)])])])].
Proof.
  intros Hl Hne Hp Ha Hs. simpl in Hne.
  unfold parse, __parse, vdf_lines.
  rewrite (loop_quoted _ _ 0 _ _ DQ "libraryfolders") by reflexivity.
  cbn [Nat.add __key_modifier].
  rewrite (loop_open _ _ 1 _ _ "{") by reflexivity.
  unfold __parse. cbn [Nat.add].
  rewrite (loop_quoted _ _ 2 _ _ DQ label) by auto.
  cbn [Nat.add __key_modifier].
  rewrite (loop_open _ _ 3 label _ "{") by auto.
  unfold __parse. cbn [Nat.add].
  rewrite (loop_pair_line _ _ 4 _ _ "path" path) by auto.
  cbn [Nat.add __key_modifier setitem].
  rewrite (loop_quoted _ _ 5 _ _ DQ "apps") by reflexivity.
  cbn [Nat.add __key_modifier].
  rewrite (loop_open _ _ 6 _ _ "{") by reflexivity.
  unfold __parse. cbn [Nat.add].
  rewrite (loop_pair_line _ _ 7 _ _ app size) by auto.
  cbn [Nat.add __key_modifier setitem].
  rewrite (loop_close _ _ 8 _ _ "}") by reflexivity.
  cbn [Nat.add].
  rewrite (loop_close _ _ 9 _ _ "}") by reflexivity.
  cbn [Nat.add].
  rewrite (loop_close _ _ 10 _ _ "}") by reflexivity.
  cbn [Nat.add].
  rewrite loop_end by reflexivity.
  reflexivity.
Qed.

End Layout.

(** X18: on a file of the usual layout with one library folder,
    [locate_tf2_dir] returns the game folder below the path of the
    library exactly when the installed application is [440] and the
    folder is a directory with the file [hl2_linux] in it, and [None]
    otherwise. *)
Theorem usual_layout_is_located
        open_text isdir isfile vdf_file content label path app size :
  open_text vdf_file = Some content ->
  file_lines content = vdf_lines label path app size ->
  free_of DQ label = true -> falsy (Some label) = false ->
  free_of DQ path = true -> free_of DQ app = true ->
  free_of DQ size = true ->
  locate_tf2_dir open_text isdir isfile vdf_file =
  Ok (let folder :=
        path_join path ["steamapps"; "common"; "Team Fortress 2"] in
      if String.eqb "440" app && isdir folder
         && isfile (folder ++ "/hl2_linux")
      then Some folder else None).
Proof.
  intros Ho Hf Hl Hne Hp Ha Hs.
  unfold locate_tf2_dir, KeyValues_init, parse_text. rewrite Ho, Hf.
  rewrite parse_vdf_lines by assumption.
  set (apps := Mapping [(app, Scalar size)]).
  set (lib := Mapping [("path", Scalar path); ("apps", apps)]).
  change (scan_libraries isdir isfile [lib] = Ok
            (let folder :=
               path_join path ["steamapps"; "common"; "Team Fortress 2"] in
             if String.eqb "440" app && isdir folder
                && isfile (folder ++ "/hl2_linux")
             then Some folder else None)).
  rewrite scan_step.
  change (subscript lib "path") with (Ok (Scalar path)).
  change (subscript lib "apps") with (Ok apps).
  cbn [bind tf2_folder_of].
  change (member "440" apps) with (String.eqb "440" app || false).
  rewrite orb_false_r.
  destruct (String.eqb "440" app); cbn [bind andb scan_libraries];
    [|reflexivity].
  now destruct (isdir _ && isfile _).
Qed.

Lemma usual_layout_witness :
  locate_tf2_dir example_open (fun _ => true) (fun _ => true)
                 "/s/steamapps/libraryfolders.vdf" =
  Ok (let folder :=
        path_join "/lib" ["steamapps"; "common"; "Team Fortress 2"] in
      if String.eqb "440" "440" && (fun _ : string => true) folder
         && (fun _ : string => true) (folder ++ "/hl2_linux")
      then Some folder else None).
Proof.
  apply (usual_layout_is_located
           example_open (fun _ => true) (fun _ => true)
           "/s/steamapps/libraryfolders.vdf" example_vdf
           "0" "/lib" "440" "12");
    reflexivity.
Defined.


(** ** [copy_asset_pack_files] *)

Section CopyFacts.

Variable getcwd : string.
Variable walk : string -> list (string * list string).
Variable getsize : string -> nat.

Lemma insert_sorted_in x y l :
  In x (insert_sorted y l) <-> x = y \/ In x l.
Proof.
  induction l as [|z l IH]; simpl; [intuition|].
  destruct (String.leb y z); simpl; [intuition|].
  rewrite IH. intuition.
Qed.

(** [sorted] keeps the elements. *)
Lemma sorted_in x l : In x (sorted l) <-> In x l.
Proof.
  induction l as [|y l IH]; simpl; [reflexivity|].
  rewrite insert_sorted_in, IH. intuition.
Qed.

(** What the loop over one directory adds. *)
Lemma gather_files_adds current_dir files :
  forall g,
    let added_unsorted :=
      map (fun file =>
             (rel_path getcwd current_dir ++ sep ++ file,
              getsize (current_dir ++ sep ++ file)))
          (filter (fun file => negb (skipped file)) files) in
    gather_files getcwd getsize current_dir files g =
    {| copy_size := copy_size g + list_sum (map snd added_unsorted);
       files_to_copy := (files_to_copy g ++ added_unsorted)%list;
       done := done g |}.
Proof.
  induction files as [|file rest IH]; intros g; simpl.
  - rewrite Nat.add_0_r, app_nil_r. now destruct g.
  - destruct (skipped file); simpl; [apply IH|].
    rewrite IH. simpl. f_equal; [lia|].
    now rewrite <- app_assoc.
Qed.

(** What the loop over the walked directories gathers: the sizes add
    up, the files queue up in the order of the walk, one directory is
    made for each walked one. *)
Lemma gather_all tf2_dir w :
  forall g,
    gather getcwd getsize tf2_dir w g =
    {| copy_size :=
         copy_size g
         + list_sum (map snd (flat_map (wanted_files getcwd getsize) w));
       files_to_copy :=
         (files_to_copy g ++ flat_map (wanted_files getcwd getsize) w)%list;
       done :=
         (done g ++
          map (fun entry =>
                 Makedirs (client_dir tf2_dir ++ sep
                           ++ rel_path getcwd (fst entry))) w)%list |}.
Proof.
  induction w as [|[current_dir files_list] w IH]; intros g; simpl.
  - rewrite Nat.add_0_r, !app_nil_r. now destruct g.
  - rewrite IH, gather_files_adds. unfold wanted_files. simpl.
    rewrite map_app, list_sum_app, <- !app_assoc. simpl.
    f_equal. lia.
Qed.

(** The second loop with a total size that is not zero. *)
Lemma copy_files_runs tf2_dir n files :
  n <> 0 ->
  forall before,
    copy_files getcwd tf2_dir n before files =
    (copy_rounds getcwd tf2_dir n before files, None).
Proof.
  intros Hn. apply Nat.eqb_neq in Hn.
  induction files as [|[rel size] rest IH]; intros before; simpl;
    [reflexivity|].
  rewrite Hn, IH. reflexivity.
Qed.

Let top := asset_pack_dir getcwd.
Let queue := flat_map (wanted_files getcwd getsize) (walk top).
Let total := list_sum (map snd queue).
Let made tf2_dir :=
  map (fun entry =>
         Makedirs (client_dir tf2_dir ++ sep ++ rel_path getcwd (fst entry)))
      (walk top).

(** The function, loop by loop. *)
Lemma copy_asset_pack_files_runs tf2_dir :
  copy_asset_pack_files getcwd walk getsize tf2_dir =
  let (events, exc) := copy_files getcwd tf2_dir total 0 queue in
  ((made tf2_dir ++ PrintTotal total :: events)%list, exc).
Proof.
  unfold copy_asset_pack_files. rewrite gather_all. reflexivity.
Qed.

Lemma queue_in f :
  In f queue <->
  exists current_dir file,
    walked walk top current_dir file /\
    f = (rel_path getcwd current_dir ++ sep ++ file,
         getsize (current_dir ++ sep ++ file)).
Proof.
  unfold queue. rewrite in_flat_map. split.
  - intros ([current_dir files_list] & Hw & Hf).
    unfold wanted_files in Hf. apply in_map_iff in Hf.
    destruct Hf as (file & <- & Hfile). apply filter_In in Hfile.
    destruct Hfile as [Hin Hs]. rewrite sorted_in in Hin.
    apply negb_true_iff in Hs. simpl in Hin.
    exists current_dir, file. split; [|reflexivity].
    exists files_list. auto.
  - intros (current_dir & file & (files_list & Hw & Hin & Hs) & ->).
    exists (current_dir, files_list). split; [exact Hw|].
    unfold wanted_files. apply in_map_iff. exists file.
    split; [reflexivity|]. apply filter_In.
    rewrite sorted_in, Hs. simpl. auto.
Qed.

Lemma copy_rounds_copies tf2_dir n files src dst :
  forall before,
    In (Copy2 src dst) (copy_rounds getcwd tf2_dir n before files) <->
    exists f, In f files /\
              src = asset_pack_dir getcwd ++ sep ++ fst f /\
              dst = client_dir tf2_dir ++ sep ++ fst f.
Proof.
  induction files as [|f rest IH]; intros before; simpl.
  - split; [intros [] | intros (f & [] & _)].
  - rewrite IH. split.
    + intros [H|[H|(g & Hg & E)]].
      * discriminate.
      * injection H as <- <-. exists f. auto.
      * exists g. auto.
    + intros (g & [->|Hg] & -> & ->); [auto|]. right. right. eauto.
Qed.

Lemma copy_rounds_progress tf2_dir n files a b rel :
  forall before,
    In (PrintProgress a b rel) (copy_rounds getcwd tf2_dir n before files) ->
    b = n /\ before * 100 <= a /\
    a <= (before + list_sum (map snd files)) * 100.
Proof.
  induction files as [|f rest IH]; intros before; simpl; [intros []|].
  intros [[= <- <- _]|[[=]|H]].
  - split; [reflexivity | lia].
  - apply IH in H. lia.
Qed.

Lemma copy_rounds_no_makedirs tf2_dir n files p :
  forall before,
    ~ In (Makedirs p) (copy_rounds getcwd tf2_dir n before files).
Proof.
  induction files as [|f rest IH]; intros before; simpl; [tauto|].
  intros [[=]|[[=]|H]]. now apply IH in H.
Qed.

Lemma list_sum_zero l : list_sum l = 0 <-> Forall (fun x => x = 0) l.
Proof.
  induction l as [|x l IH]; simpl; split; intros H.
  - constructor.
  - reflexivity.
  - constructor; [lia | apply IH; lia].
  - inversion_clear H as [|? ? -> Hl]. now apply IH.
Qed.

(** The two ways the second loop ends. *)
Lemma copy_files_ends tf2_dir :
  copy_files getcwd tf2_dir total 0 queue =
  if (total =? 0)%nat
  then ([], match queue with [] => None | _ => Some ZeroDivisionError end)
  else (copy_rounds getcwd tf2_dir total 0 queue, None).
Proof.
  destruct (total =? 0)%nat eqn:E.
  - destruct queue as [|[rel size] rest]; simpl; [reflexivity|].
    now rewrite E.
  - apply copy_files_runs. now apply Nat.eqb_neq.
Qed.

(** The copies are those of the queue, made when the total is not
    zero. *)
Lemma copy2_iff tf2_dir src dst :
  In (Copy2 src dst)
     (fst (copy_asset_pack_files getcwd walk getsize tf2_dir)) <->
  total <> 0 /\
  exists f, In f queue /\
            src = asset_pack_dir getcwd ++ sep ++ fst f /\
            dst = client_dir tf2_dir ++ sep ++ fst f.
Proof.
  rewrite copy_asset_pack_files_runs, copy_files_ends.
  destruct (total =? 0)%nat eqn:E; cbn [fst].
  - apply Nat.eqb_eq in E. split; [|now intros [Hne _]].
    intros H. apply in_app_or in H. destruct H as [H|[[=]|[]]].
    unfold made in H. apply in_map_iff in H.
    now destruct H as (? & [=] & _).
  - apply Nat.eqb_neq in E. rewrite in_app_iff. split.
    + intros [H|[[=]|H]].
      * unfold made in H. apply in_map_iff in H.
        now destruct H as (? & [=] & _).
      * split; [exact E|]. now apply copy_rounds_copies in H.
    + intros [_ H]. right. right. now apply copy_rounds_copies.
Qed.

(** Without exception and with a file in the queue the total is not
    zero. *)
Lemma no_exception_total tf2_dir f :
  snd (copy_asset_pack_files getcwd walk getsize tf2_dir) = None ->
  In f queue -> total <> 0.
Proof.
  rewrite copy_asset_pack_files_runs, copy_files_ends. intros Hn Hf Ht.
  apply Nat.eqb_eq in Ht. rewrite Ht in Hn. cbn [snd] in Hn.
  destruct queue; [destruct Hf | discriminate].
Qed.

(** The directories made are those of the walk. *)
Lemma makedirs_in tf2_dir p :
  In (Makedirs p)
     (fst (copy_asset_pack_files getcwd walk getsize tf2_dir)) ->
  exists current_dir,
    p = client_dir tf2_dir ++ sep ++ rel_path getcwd current_dir.
Proof.
  rewrite copy_asset_pack_files_runs, copy_files_ends. intros H.
  assert (Hm : In (Makedirs p) (made tf2_dir) ->
               exists current_dir,
                 p = client_dir tf2_dir ++ sep ++ rel_path getcwd current_dir).
  { unfold made. intros Hin. apply in_map_iff in Hin.
    destruct Hin as (entry & Heq & _). injection Heq as <-.
    now exists (fst entry). }
  destruct (total =? 0)%nat; cbn [fst] in H; apply in_app_or in H;
    destruct H as [H|[H|H]]; auto; try discriminate.
  - destruct H.
  - now apply copy_rounds_no_makedirs in H.
Qed.

(** X21: the only exception of the function is the division by a total
    size of zero, raised exactly when there are files to copy and all of
    them are empty; no file has been copied then. *)
Theorem empty_files_divide_by_zero tf2_dir :
  (snd (copy_asset_pack_files getcwd walk getsize tf2_dir)
   = Some ZeroDivisionError <->
   (exists current_dir file, walked walk (asset_pack_dir getcwd)
                                    current_dir file) /\
   (forall current_dir file,
       walked walk (asset_pack_dir getcwd) current_dir file ->
       getsize (current_dir ++ sep ++ file) = 0)) /\
  (forall e,
      snd (copy_asset_pack_files getcwd walk getsize tf2_dir) = Some e ->
      e = ZeroDivisionError /\
      forall src dst,
        ~ In (Copy2 src dst)
             (fst (copy_asset_pack_files getcwd walk getsize tf2_dir))).
Proof.
  rewrite copy_asset_pack_files_runs, copy_files_ends.
  assert (Hz : total = 0 <->
               forall current_dir file,
                 walked walk top current_dir file ->
                 getsize (current_dir ++ sep ++ file) = 0).
  { unfold total. rewrite list_sum_zero, Forall_forall. split.
    - intros H current_dir file Hw.
      apply (H (getsize (current_dir ++ sep ++ file))).
      apply in_map_iff. eexists. split; [|apply queue_in; eauto].
      reflexivity.
    - intros H x Hx. apply in_map_iff in Hx.
      destruct Hx as (f & <- & Hf). apply queue_in in Hf.
      destruct Hf as (current_dir & file & Hw & ->). now apply H. }
  assert (Hq : queue <> [] <->
               exists current_dir file, walked walk top current_dir file).
  { split.
    - intros Hne. destruct queue as [|f q] eqn:E; [now elim Hne|].
      assert (Hf : In f queue) by (rewrite E; now left).
      apply queue_in in Hf. destruct Hf as (d & file & Hw & _). eauto.
    - intros (d & file & Hw) E.
      assert (Hf : In (rel_path getcwd d ++ sep ++ file,
                       getsize (d ++ sep ++ file)) queue)
        by (apply queue_in; eauto).
      rewrite E in Hf. destruct Hf. }
  fold top. destruct (total =? 0)%nat eqn:E; cbn [fst snd].
  - apply Nat.eqb_eq in E. split.
    + split.
      * intros H. split; [|now apply Hz]. apply Hq.
        intros Eq. rewrite Eq in H. discriminate.
      * intros [Hex _]. apply Hq in Hex. now destruct queue.
    + intros e He. split.
      { destruct queue; [discriminate | now injection He]. }
      intros src dst H. apply in_app_or in H.
      destruct H as [H|[[=]|[]]]. unfold made in H.
      apply in_map_iff in H. now destruct H as (? & [=] & _).
  - apply Nat.eqb_neq in E. split; [|discriminate].
    split; [discriminate|]. intros [_ H]. now apply Hz in H.
Qed.

(** X22: the total that is printed is the sum of the sizes of the files
    to copy, every percentage is a part of that total, and none is above
    a hundred. *)
Theorem progress_is_a_part_of_the_total tf2_dir :
  In (PrintTotal (list_sum
                    (map snd (flat_map (wanted_files getcwd getsize)
                                       (walk (asset_pack_dir getcwd))))))
     (fst (copy_asset_pack_files getcwd walk getsize tf2_dir)) /\
  forall dividend divisor rel,
    In (PrintProgress dividend divisor rel)
       (fst (copy_asset_pack_files getcwd walk getsize tf2_dir)) ->
    divisor = list_sum
                (map snd (flat_map (wanted_files getcwd getsize)
                                   (walk (asset_pack_dir getcwd)))) /\
    divisor <> 0 /\ dividend <= 100 * divisor.
Proof.
  rewrite copy_asset_pack_files_runs, copy_files_ends. fold top queue total.
  split.
  - destruct (total =? 0)%nat; cbn [fst]; apply in_or_app; right; now left.
  - intros a b rel H.
    destruct (total =? 0)%nat eqn:E; cbn [fst] in H;
      apply in_app_or in H; destruct H as [H|[[=]|H]];
      try (unfold made in H; apply in_map_iff in H;
           destruct H as (? & [=] & _)).
    + destruct H.
    + apply Nat.eqb_neq in E. apply copy_rounds_progress in H.
      unfold total in *. lia.
Qed.

(** X23: one directory is made for every walked directory, in the order
    of the walk and before anything is copied, also when the function
    then raises. *)
Theorem directories_are_made_first tf2_dir :
  exists rest,
    fst (copy_asset_pack_files getcwd walk getsize tf2_dir) =
    (map (fun entry =>
            Makedirs (client_dir tf2_dir ++ sep
                      ++ rel_path getcwd (fst entry)))
         (walk (asset_pack_dir getcwd))
     ++ rest)%list /\
    forall p, ~ In (Makedirs p) rest.
Proof.
  rewrite copy_asset_pack_files_runs, copy_files_ends. fold top.
  destruct (total =? 0)%nat; cbn [fst]; eexists; (split; [reflexivity|]);
    intros p [[=]|H]; [destruct H|].
  now apply copy_rounds_no_makedirs in H.
Qed.

End CopyFacts.


Lemma empty_files_witness :
  (exists current_dir file,
      walked example_walk (asset_pack_dir "/pack") current_dir file) /\
  (forall current_dir file,
      walked example_walk (asset_pack_dir "/pack") current_dir file ->
      (fun _ : string => 0) (current_dir ++ sep ++ file) = 0).
Proof.
  apply (proj1 (empty_files_divide_by_zero
                  "/pack" example_walk (fun _ => 0) "/game")).
  reflexivity.
Defined.

Lemma progress_witness :
  33 = list_sum
         (map snd (flat_map (wanted_files "/pack" example_getsize)
                            (example_walk (asset_pack_dir "/pack")))) /\
  33 <> 0 /\ 1400 <= 100 * 33.
Proof.
  apply (proj2 (progress_is_a_part_of_the_total
                  "/pack" example_walk example_getsize "/game")
               1400 33 "maps/x.bsp").
  vm_compute. repeat (try (left; reflexivity); right).
Defined.

Lemma directories_witness :
  exists rest,
    fst (copy_asset_pack_files "/pack" example_walk example_getsize "/game")
    = (map (fun entry =>
              Makedirs (client_dir "/game" ++ sep
                        ++ rel_path "/pack" (fst entry)))
           (example_walk (asset_pack_dir "/pack"))
       ++ rest)%list /\
    forall p, ~ In (Makedirs p) rest.
Proof.
  apply (directories_are_made_first "/pack" example_walk example_getsize
                                    "/game").
Defined.


(** ** The relative path of a walked directory *)

Section RelativePath.

Lemma prefix_append a t : String.prefix a (a ++ t) = true.
Proof.
  induction a as [|c a IH]; simpl; [now destruct t|].
  destruct (ascii_dec c c) as [_|Hne]; [exact IH | now elim Hne].
Qed.

Lemma remove_skip old a t :
  remove_from old (String.length a) (a ++ t) = remove_from old 0 t.
Proof. induction a as [|c a IH]; simpl; [reflexivity | exact IH]. Qed.

(** The first occurrence, at the start, is taken out. *)
Lemma remove_at_start old t :
  String.eqb old EmptyString = false ->
  remove_from old 0 (old ++ t) = remove_from old 0 t.
Proof.
  intros Hne. destruct old as [|c old]; [discriminate|].
  change (String c old ++ t) with (String c (old ++ t)).
  cbn [remove_from].
  change (String c (old ++ t)) with (String c old ++ t).
  rewrite prefix_append.
  replace (String.length (String c old) - 1) with (String.length old)
    by (cbn [String.length]; lia).
  apply remove_skip.
Qed.

(** A text that does not hold [old] is left as it is. *)
Lemma remove_absent old t :
  contains old t = false -> remove_from old 0 t = t.
Proof.
  induction t as [|c t IH]; intros H; [reflexivity|].
  cbn [contains] in H. apply orb_false_iff in H. destruct H as [Hp Hc].
  cbn [remove_from]. rewrite Hp. now rewrite IH.
Qed.

End RelativePath.

(** X24: for a directory below the asset pack whose relative path has no
    separator at its ends and does not hold the path of the pack again,
    [rel_path] gives back the relative path, so the file that is copied
    is the file that was walked and measured; the relative path of the
    pack itself is empty. *)
Theorem relative_path_is_recovered getcwd rel file :
  strip_sep rel = rel ->
  contains (asset_pack_dir getcwd) (sep ++ rel) = false ->
  rel_path getcwd (asset_pack_dir getcwd ++ sep ++ rel) = rel /\
  asset_pack_dir getcwd ++ sep
  ++ (rel_path getcwd (asset_pack_dir getcwd ++ sep ++ rel) ++ sep ++ file)
  = (asset_pack_dir getcwd ++ sep ++ rel) ++ sep ++ file /\
  rel_path getcwd (asset_pack_dir getcwd) = EmptyString.
Proof.
  intros Hrel Hc.
  assert (Hne : String.eqb (asset_pack_dir getcwd) EmptyString = false)
    by (unfold asset_pack_dir, sep; apply append_not_empty).
  assert (E : rel_path getcwd (asset_pack_dir getcwd ++ sep ++ rel) = rel).
  { unfold rel_path, replace_by_nothing. rewrite Hne.
    rewrite remove_at_start by exact Hne.
    rewrite remove_absent by exact Hc. exact Hrel. }
  split; [exact E|]. split.
  - rewrite E. now rewrite !append_assoc.
  - unfold rel_path, replace_by_nothing. rewrite Hne.
    rewrite <- (append_empty (asset_pack_dir getcwd)) at 2.
    now rewrite remove_at_start.
Qed.

Lemma relative_path_witness :
  rel_path "/pack" (asset_pack_dir "/pack" ++ sep ++ "maps/de") = "maps/de"
  /\ asset_pack_dir "/pack" ++ sep
     ++ (rel_path "/pack" (asset_pack_dir "/pack" ++ sep ++ "maps/de")
         ++ sep ++ "x.bsp")
     = (asset_pack_dir "/pack" ++ sep ++ "maps/de") ++ sep ++ "x.bsp"
  /\ rel_path "/pack" (asset_pack_dir "/pack") = EmptyString.
Proof.
  apply (relative_path_is_recovered "/pack" "maps/de" "x.bsp");
    reflexivity.
Defined.

(** ** The copies and the walked files *)

Section WalkedFiles.

Variable getcwd : string.

(** [rel_path] finds the relative path of a directory below the pack. *)
Lemma below_rel_path current_dir rel :
  below getcwd current_dir rel -> rel_path getcwd current_dir = rel.
Proof.
  assert (Hne : String.eqb (asset_pack_dir getcwd) EmptyString = false)
    by (unfold asset_pack_dir, sep; apply append_not_empty).
  unfold rel_path, replace_by_nothing. rewrite Hne.
  intros [[-> ->] | (-> & Hrel & Hc)].
  - rewrite <- (append_empty (asset_pack_dir getcwd)) at 2.
    now rewrite remove_at_start.
  - rewrite remove_at_start by exact Hne.
    now rewrite remove_absent.
Qed.

(** The source of a copy, put together from the pack and the relative
    path, is the path under which the file was walked; for a file of the
    pack's own directory the separator comes twice. *)
Lemma below_source current_dir rel file :
  below getcwd current_dir rel ->
  asset_pack_dir getcwd ++ sep ++ (rel ++ sep ++ file)
  = current_dir ++ sep ++ file \/
  current_dir = asset_pack_dir getcwd /\
  asset_pack_dir getcwd ++ sep ++ (rel ++ sep ++ file)
  = current_dir ++ sep ++ (sep ++ file).
Proof.
  intros [[-> ->] | (-> & _ & _)].
  - right. split; reflexivity.
  - left. now rewrite !append_assoc.
Qed.

Variable walk : string -> list (string * list string).
Variable getsize : string -> nat.

(** A walked file below the pack is in the queue under its relative
    path, and is copied when the function ends without exception. *)
Lemma walked_below_copied tf2_dir current_dir rel file :
  snd (copy_asset_pack_files getcwd walk getsize tf2_dir) = None ->
  below getcwd current_dir rel ->
  walked walk (asset_pack_dir getcwd) current_dir file ->
  In (Copy2 (asset_pack_dir getcwd ++ sep ++ (rel ++ sep ++ file))
            (client_dir tf2_dir ++ sep ++ (rel ++ sep ++ file)))
     (fst (copy_asset_pack_files getcwd walk getsize tf2_dir)).
Proof.
  intros Hn Hb Hw.
  assert (Hq : In (rel ++ sep ++ file, getsize (current_dir ++ sep ++ file))
                  (flat_map (wanted_files getcwd getsize)
                            (walk (asset_pack_dir getcwd)))).
  { apply queue_in. exists current_dir, file. split; [exact Hw|].
    now rewrite (below_rel_path current_dir rel Hb). }
  apply copy2_iff. split.
  - exact (no_exception_total getcwd walk getsize tf2_dir _ Hn Hq).
  - eexists. split; [exact Hq|]. split; reflexivity.
Qed.

End WalkedFiles.

(** X19: when every walked directory is the pack's own or lies below it
    under a relative path that does not hold the path of the pack again,
    every file that is copied is a walked file whose name ends neither
    in [.nav] nor in [.pop]: the source of the copy is the path under
    which the file was walked (with the separator twice for a file of
    the pack's own directory), and its destination is the relative path
    of the file below the client's folder. *)
Theorem copies_are_walked_files getcwd walk getsize tf2_dir src dst :
  (forall current_dir files_list,
      In (current_dir, files_list) (walk (asset_pack_dir getcwd)) ->
      exists rel, below getcwd current_dir rel) ->
  In (Copy2 src dst)
     (fst (copy_asset_pack_files getcwd walk getsize tf2_dir)) ->
  exists current_dir file rel,
    walked walk (asset_pack_dir getcwd) current_dir file /\
    below getcwd current_dir rel /\
    dst = client_dir tf2_dir ++ sep ++ (rel ++ sep ++ file) /\
    (src = current_dir ++ sep ++ file \/
     current_dir = asset_pack_dir getcwd /\
     src = current_dir ++ sep ++ (sep ++ file)).
Proof.
  intros Htidy H. apply copy2_iff in H.
  destruct H as (_ & f & Hf & -> & ->).
  apply queue_in in Hf. destruct Hf as (current_dir & file & Hw & ->).
  destruct Hw as (files_list & Hin & Hfile & Hs).
  destruct (Htidy current_dir files_list Hin) as [rel Hb].
  exists current_dir, file, rel. cbn [fst].
  rewrite (below_rel_path getcwd current_dir rel Hb).
  split; [exists files_list; auto|]. split; [exact Hb|].
  split; [reflexivity|]. now apply below_source.
Qed.

Lemma copies_are_walked_witness :
  exists current_dir file rel,
    walked example_walk (asset_pack_dir "/pack") current_dir file /\
    below "/pack" current_dir rel /\
    "/game/tf/maps/x.bsp"
    = client_dir "/game" ++ sep ++ (rel ++ sep ++ file) /\
    ("/pack/tf/maps/x.bsp" = current_dir ++ sep ++ file \/
     current_dir = asset_pack_dir "/pack" /\
     "/pack/tf/maps/x.bsp" = current_dir ++ sep ++ (sep ++ file)).
Proof.
  apply (copies_are_walked_files "/pack" example_walk example_getsize
                                 "/game").
  - intros current_dir files_list [H|[H|[]]]; injection H as <- _.
    + exists EmptyString. left. split; reflexivity.
    + exists "maps". right. repeat split.
  - vm_compute. repeat (try (left; reflexivity); right).
Defined.

(** X20: when the function ends without exception, every walked file
    whose name ends neither in [.nav] nor in [.pop], in the pack's own
    directory or in one below it under a relative path that does not
    hold the path of the pack again, has been copied: from the path
    under which it was walked (with the separator twice for a file of
    the pack's own directory) to its relative path below the client's
    folder. *)
Theorem walked_files_are_copied
        getcwd walk getsize tf2_dir current_dir rel file :
  snd (copy_asset_pack_files getcwd walk getsize tf2_dir) = None ->
  below getcwd current_dir rel ->
  walked walk (asset_pack_dir getcwd) current_dir file ->
  exists src,
    In (Copy2 src (client_dir tf2_dir ++ sep ++ (rel ++ sep ++ file)))
       (fst (copy_asset_pack_files getcwd walk getsize tf2_dir)) /\
    (src = current_dir ++ sep ++ file \/
     current_dir = asset_pack_dir getcwd /\
     src = current_dir ++ sep ++ (sep ++ file)).
Proof.
  intros Hn Hb Hw.
  exists (asset_pack_dir getcwd ++ sep ++ (rel ++ sep ++ file)).
  split; [now apply (walked_below_copied getcwd walk getsize tf2_dir
                                          current_dir)|].
  now apply below_source.
Qed.

Lemma walked_files_are_copied_witness :
  exists src,
    In (Copy2 src (client_dir "/game" ++ sep ++ ("maps" ++ sep ++ "x.bsp")))
       (fst (copy_asset_pack_files "/pack" example_walk example_getsize
                                   "/game")) /\
    (src = "/pack/tf/maps" ++ sep ++ "x.bsp" \/
     "/pack/tf/maps" = asset_pack_dir "/pack" /\
     src = "/pack/tf/maps" ++ sep ++ (sep ++ "x.bsp")).
Proof.
  apply (walked_files_are_copied "/pack" example_walk example_getsize
                                 "/game" "/pack/tf/maps" "maps" "x.bsp").
  - reflexivity.
  - right. repeat split.
  - exists ["x.pop"; "x.bsp"]. repeat split.
    + right. left. reflexivity.
    + right. left. reflexivity.
Defined.


(** ** [locate_steam_dir] *)

Section SteamFacts.

Variable home_dir : string.
Variable isfile : string -> bool.
Variable ps_output : string.
Variable parent : string -> string.

Lemma endswith_append suffix x : endswith suffix (x ++ suffix) = true.
Proof.
  induction x as [|c x IH]; simpl.
  - destruct suffix; simpl; now rewrite ?String.eqb_refl, ?Ascii.eqb_refl.
  - rewrite IH. apply orb_true_r.
Qed.

Lemma split_from_nothing s :
  forall field,
    split_from field s = [] -> field = EmptyString /\ all_space s = true.
Proof.
  induction s as [|c s IH]; intros field H; simpl in H.
  - now destruct field.
  - simpl. destruct (is_space c).
    + destruct field; [|discriminate]. now apply IH in H.
    + apply IH in H. destruct H as [H _]. now destruct field.
Qed.

Lemma split_from_spaces s :
  all_space s = true -> split_from EmptyString s = [].
Proof.
  induction s as [|c s IH]; simpl; [reflexivity|].
  intros H. apply andb_true_iff in H. destruct H as [-> H]. auto.
Qed.

Lemma lstrip_nothing s : lstrip s = EmptyString -> all_space s = true.
Proof.
  induction s as [|c s IH]; simpl; [reflexivity|].
  destruct (is_space c); [exact IH | discriminate].
Qed.

(** A line is blank exactly when it has no field. *)
Lemma blank_no_field x : strip x = EmptyString <-> split x = [].
Proof.
  unfold strip, split. split; intros H.
  - apply split_from_spaces.
    destruct (lstrip_split x) as [E|(c & t & E & Hc)];
      [now apply lstrip_nothing|].
    rewrite E in H. destruct (rstrip_keeps_head c t Hc) as [r Hr].
    rewrite Hr in H. discriminate.
  - apply split_from_nothing in H. destruct H as [_ H].
    now rewrite lstrip_all_space.
Qed.

Lemma last_two_ok fields before last :
  last_two fields = Ok (before, last) <->
  exists front, fields = (front ++ [before; last])%list.
Proof.
  unfold last_two. split.
  - intros H. destruct (rev fields) as [|l [|b tl]] eqn:E; try discriminate.
    injection H as -> ->. exists (rev tl).
    rewrite <- (rev_involutive fields), E. simpl.
    now rewrite <- app_assoc.
  - intros [front ->]. rewrite rev_app_distr. reflexivity.
Qed.

Lemma last_two_err fields e :
  last_two fields = Err e ->
  e = IndexError /\ (fields = [] \/ exists field, fields = [field]).
Proof.
  unfold last_two. intros H.
  destruct (rev fields) as [|l [|b tl]] eqn:E; try discriminate;
    injection H as <-; split; auto;
    rewrite <- (rev_involutive fields), E; simpl; eauto.
Qed.

Let points := points_to parent.
Let scan := scan_processes isfile parent.

(** One round of the loop over the process list. *)
Lemma scan_processes_round x rest r :
  scan (x :: rest) = r ->
  (exists field, split x = [field] /\ r = Err IndexError) \/
  (exists vdf, points x vdf /\ isfile vdf = true /\ r = Ok (Some vdf)) \/
  (scan rest = r /\ forall vdf, points x vdf -> isfile vdf = false).
Proof.
  unfold scan. simpl. intros H.
  destruct (String.eqb (strip x) EmptyString) eqn:Eb.
  - right. right. split; [exact H|].
    apply String.eqb_eq in Eb. apply blank_no_field in Eb.
    intros vdf (before & script & Hs & _). rewrite Eb in Hs.
    now destruct before.
  - apply String.eqb_neq in Eb.
    destruct (last_two (split x)) as [[before last]| |] eqn:El;
      cbn [bind fst snd] in H.
    + apply last_two_ok in El. destruct El as [front El].
      assert (Hp : forall vdf, points x vdf ->
                     before = "bash" /\ endswith "/steam.sh" last = true /\
                     vdf = parent last ++ libraryfolders_path).
      { intros vdf (b & script & Hs & He & ->). rewrite El in Hs.
        apply (f_equal (@rev string)) in Hs.
        rewrite !rev_app_distr in Hs. simpl in Hs.
        injection Hs as -> -> _. auto. }
      destruct (String.eqb before "bash" && endswith "/steam.sh" last)
        eqn:Et.
      * apply andb_true_iff in Et. destruct Et as [Et1 Et2].
        apply String.eqb_eq in Et1. subst before.
        destruct (isfile (parent last ++ libraryfolders_path)) eqn:Ef.
        -- right. left. eexists. split; [|split; [exact Ef | now symmetry]].
           exists front, last. auto.
        -- right. right. split; [exact H|].
           intros vdf Hv. destruct (Hp vdf Hv) as (_ & _ & ->). exact Ef.
      * right. right. split; [exact H|].
        intros vdf Hv. destruct (Hp vdf Hv) as (-> & He & _).
        rewrite He in Et. discriminate.
    + apply last_two_err in El. destruct El as [-> [El|[field El]]].
      * apply blank_no_field in El. now elim Eb.
      * left. exists field. auto.
    + unfold last_two in El. now destruct (rev (split x)) as [|? [|? ?]].
Qed.

Lemma scan_processes_found xs vdf :
  scan xs = Ok (Some vdf) ->
  isfile vdf = true /\ exists line, In line xs /\ points line vdf.
Proof.
  induction xs as [|x rest IH]; intros H; [discriminate|].
  destruct (scan_processes_round x rest _ H)
    as [(f & _ & [=])|[(v & Hp & Hf & [= <-])|[Hrest _]]].
  - split; [exact Hf|]. exists x. split; [now left | exact Hp].
  - destruct (IH Hrest) as (Hf & line & Hin & Hp).
    split; [exact Hf|]. exists line. split; [now right | exact Hp].
Qed.

Lemma scan_processes_none xs :
  scan xs = Ok None ->
  forall line vdf, In line xs -> points line vdf -> isfile vdf = false.
Proof.
  induction xs as [|x rest IH]; intros H line vdf Hin Hp; [destruct Hin|].
  destruct (scan_processes_round x rest _ H)
    as [(f & _ & [=])|[(v & _ & _ & [=])|[Hrest Hno]]].
  destruct Hin as [<-|Hin]; [now apply Hno | now apply (IH Hrest line)].
Qed.

Lemma scan_processes_raises xs e :
  scan xs = Err e ->
  e = IndexError /\ exists line field, In line xs /\ split line = [field].
Proof.
  induction xs as [|x rest IH]; intros H; [discriminate|].
  destruct (scan_processes_round x rest _ H)
    as [(f & Hs & [= <-])|[(v & _ & _ & [=])|[Hrest _]]].
  - split; [reflexivity|]. exists x, f. split; [now left | exact Hs].
  - destruct (IH Hrest) as (-> & line & f & Hin & Hs).
    split; [reflexivity|]. exists line, f. split; [now right | exact Hs].
Qed.

Let place1 := home_dir ++ "/.steam/steam" ++ libraryfolders_path.
Let place2 := home_dir ++ "/.local/share/Steam/" ++ libraryfolders_path.

Lemma locate_steam_dir_cases :
  locate_steam_dir home_dir isfile ps_output parent =
  if isfile place1 then Ok (Some place1)
  else if isfile place2 then Ok (Some place2)
  else scan (split_newline ps_output).
Proof.
  unfold locate_steam_dir. cbn [first_file]. fold place1 place2.
  destruct (isfile place1); [reflexivity|].
  now destruct (isfile place2).
Qed.

(** X25: what [locate_steam_dir] returns is an existing file named
    [libraryfolders.vdf] in a folder [steamapps]: one of the two places
    below the home directory, or the place that a line of the process
    list points to. *)
Theorem located_steam_file_exists vdf :
  locate_steam_dir home_dir isfile ps_output parent = Ok (Some vdf) ->
  isfile vdf = true /\
  endswith "/steamapps/libraryfolders.vdf" vdf = true /\
  (vdf = home_dir ++ "/.steam/steam" ++ libraryfolders_path \/
   vdf = home_dir ++ "/.local/share/Steam/" ++ libraryfolders_path \/
   exists line,
     In line (split_newline ps_output) /\ points_to parent line vdf).
Proof.
  rewrite locate_steam_dir_cases. fold libraryfolders_path.
  destruct (isfile place1) eqn:E1;
    [|destruct (isfile place2) eqn:E2]; intros H.
  - injection H as <-. split; [exact E1|]. split; [|now left].
    unfold place1. rewrite <- append_assoc. apply endswith_append.
  - injection H as <-. split; [exact E2|]. split; [|now right; left].
    unfold place2. rewrite <- append_assoc. apply endswith_append.
  - apply scan_processes_found in H.
    destruct H as (Hf & line & Hin & Hp). split; [exact Hf|].
    split; [|right; right; eauto].
    destruct Hp as (b & script & _ & _ & ->). apply endswith_append.
Qed.

(** X26: when [locate_steam_dir] returns [None], none of the places it
    knows holds the file: neither of the two below the home directory,
    nor any that a line of the process list points to. *)
Theorem no_steam_file_anywhere :
  locate_steam_dir home_dir isfile ps_output parent = Ok None ->
  isfile (home_dir ++ "/.steam/steam" ++ libraryfolders_path) = false /\
  isfile (home_dir ++ "/.local/share/Steam/" ++ libraryfolders_path)
  = false /\
  forall line vdf,
    In line (split_newline ps_output) -> points_to parent line vdf ->
    isfile vdf = false.
Proof.
  rewrite locate_steam_dir_cases.
  destruct (isfile place1) eqn:E1; [discriminate|].
  destruct (isfile place2) eqn:E2; [discriminate|]. intros H.
  split; [exact E1|]. split; [exact E2|].
  now apply scan_processes_none.
Qed.

(** X27: the only exception of [locate_steam_dir] is the [IndexError] of
    a line of the process list with one field alone, and it is raised
    only when the file is in neither of the two places below the home
    directory. *)
Theorem lonely_field_raises e :
  locate_steam_dir home_dir isfile ps_output parent = Err e ->
  e = IndexError /\
  isfile (home_dir ++ "/.steam/steam" ++ libraryfolders_path) = false /\
  isfile (home_dir ++ "/.local/share/Steam/" ++ libraryfolders_path)
  = false /\
  exists line field,
    In line (split_newline ps_output) /\ split line = [field].
Proof.
  rewrite locate_steam_dir_cases.
  destruct (isfile place1) eqn:E1; [discriminate|].
  destruct (isfile place2) eqn:E2; [discriminate|]. intros H.
  apply scan_processes_raises in H. destruct H as [-> H]. auto.
Qed.

End SteamFacts.

Lemma located_steam_file_witness :
  (fun _ : string => true) "/opt/steam/steamapps/libraryfolders.vdf" = true
  /\ endswith "/steamapps/libraryfolders.vdf"
              "/opt/steam/steamapps/libraryfolders.vdf" = true
  /\ ("/opt/steam/steamapps/libraryfolders.vdf"
      = "/home/me" ++ "/.steam/steam" ++ libraryfolders_path \/
      "/opt/steam/steamapps/libraryfolders.vdf"
      = "/home/me" ++ "/.local/share/Steam/" ++ libraryfolders_path \/
      exists line,
        In line (split_newline example_ps) /\
        points_to example_parent line
                  "/opt/steam/steamapps/libraryfolders.vdf").
Proof.
  assert (H := located_steam_file_exists
                 "/home/me"
                 (fun f => String.eqb f "/opt/steam/steamapps/libraryfolders.vdf")
                 example_ps example_parent
                 "/opt/steam/steamapps/libraryfolders.vdf" eq_refl).
  destruct H as (_ & He & Hp). split; [reflexivity|]. split; assumption.
Defined.

Lemma no_steam_file_witness :
  (fun _ : string => false)
    ("/home/me" ++ "/.steam/steam" ++ libraryfolders_path) = false /\
  (fun _ : string => false)
    ("/home/me" ++ "/.local/share/Steam/" ++ libraryfolders_path) = false /\
  forall line vdf,
    In line (split_newline "me 1 bash /opt/steam/steam.sh") ->
    points_to example_parent line vdf ->
    (fun _ : string => false) vdf = false.
Proof.
  apply (no_steam_file_anywhere
           "/home/me" (fun _ => false) "me 1 bash /opt/steam/steam.sh"
           example_parent).
  reflexivity.
Defined.

Lemma lonely_field_witness :
  IndexError = IndexError /\
  (fun _ : string => false)
    ("/home/me" ++ "/.steam/steam" ++ libraryfolders_path) = false /\
  (fun _ : string => false)
    ("/home/me" ++ "/.local/share/Steam/" ++ libraryfolders_path) = false /\
  exists line field,
    In line (split_newline example_ps) /\ split line = [field].
Proof.
  apply (lonely_field_raises
           "/home/me" (fun _ => false) example_ps example_parent IndexError).
  reflexivity.
Defined.


(** ** [main] *)

Section MainFacts.

Variable w : World.

(** How [main] comes to copy: not as root, with the file of Steam and
    the folder of the game found. *)
Lemma main_copying (P : list Action * Res unit -> Prop) :
  (forall r, (forall a, In a (fst r) -> forall e, a <> Do e) ->
             (forall a, In a (fst r) -> a <> Say Successful) -> P r) ->
  (forall uid library_vdf tf2_dir,
      getuid w = Some uid -> uid <> 0 ->
      locate_tf2_dir (w_open_text w) (w_isdir w) (w_isfile w) library_vdf
      = Ok (Some tf2_dir) ->
      P (let (events, exc) :=
           copy_asset_pack_files (w_getcwd w) (w_walk w) (w_getsize w)
                                 tf2_dir in
         match exc with
         | Some e => ((Say (FoundGame tf2_dir) :: map Do events)%list, Err e)
         | None =>
             ((Say (FoundGame tf2_dir) :: map Do events
               ++ [Say Successful])%list, Ok tt)
         end)) ->
  P (main w).
Proof.
  intros Hquiet Hcopy. unfold main.
  assert (Q : forall l r,
             Forall (fun a => (forall e, a <> Do e) /\ a <> Say Successful) l ->
             P (l, r)).
  { intros l r Hl. rewrite Forall_forall in Hl.
    apply Hquiet; intros a Ha; now apply Hl. }
  destruct (getuid w) as [uid|] eqn:Eu;
    [|apply Q; repeat constructor; discriminate].
  destruct (uid =? 0)%nat eqn:E0;
    [apply Q; repeat constructor; discriminate|].
  apply Nat.eqb_neq in E0.
  destruct (locate_steam_dir _ _ _ _) as [[library_vdf|]| |];
    try (apply Q; repeat constructor; discriminate).
  destruct (String.eqb library_vdf EmptyString);
    [apply Q; repeat constructor; discriminate|].
  destruct (locate_tf2_dir _ _ _ library_vdf) as [[tf2_dir|]| |] eqn:Et;
    try (apply Q; repeat constructor; discriminate).
  destruct (String.eqb tf2_dir EmptyString);
    [apply Q; repeat constructor; discriminate|].
  now apply (Hcopy uid library_vdf tf2_dir).
Qed.

End MainFacts.

(** X28: whatever [main] makes or copies, it does not do as root, and it
    does below the folder [tf] of a directory that exists and has the
    file [hl2_linux] in it; what it copies there comes from the folder
    [tf] of the working directory, from the same relative path. *)
Theorem main_writes_into_the_game w e :
  In (Do e) (fst (main w)) ->
  exists uid tf2_dir,
    getuid w = Some uid /\ uid <> 0 /\
    w_isdir w tf2_dir = true /\
    w_isfile w (tf2_dir ++ "/hl2_linux") = true /\
    (forall p, e = Makedirs p ->
               exists rel, p = client_dir tf2_dir ++ sep ++ rel) /\
    (forall src dst,
        e = Copy2 src dst ->
        exists rel, src = asset_pack_dir (w_getcwd w) ++ sep ++ rel /\
                    dst = client_dir tf2_dir ++ sep ++ rel).
Proof.
  apply (main_copying w (fun r => In (Do e) (fst r) -> _)).
  - intros r Hq _ H. now elim (Hq _ H e).
  - intros uid library_vdf tf2_dir Hu H0 Ht.
    destruct (copy_asset_pack_files _ _ _ tf2_dir) as [events exc] eqn:Ec.
    intros H.
    assert (He : In e events).
    { destruct exc; cbn [fst] in H; destruct H as [[=]|H];
        try (apply in_app_or in H; destruct H as [H|[[=]|[]]]);
        apply in_map_iff in H; now destruct H as (e' & [= ->] & H). }
    replace events
      with (fst (copy_asset_pack_files (w_getcwd w) (w_walk w) (w_getsize w)
                                       tf2_dir)) in He
      by now rewrite Ec.
    apply locate_reads in Ht.
    destruct Ht as (content & m & libs & _ & _ & _ & Hs).
    apply scan_found in Hs.
    destruct Hs as (pre & x & post & _ & Hx & _).
    destruct Hx as (p & apps & _ & _ & _ & _ & Hd & Hf).
    exists uid, tf2_dir. repeat split; auto.
    + intros q ->. apply makedirs_in in He. destruct He as [d ->]. eauto.
    + intros src dst ->. apply copy2_iff in He.
      destruct He as (_ & f & _ & -> & ->). eauto.
Qed.

Lemma main_writes_witness :
  exists uid tf2_dir,
    getuid example_world = Some uid /\ uid <> 0 /\
    w_isdir example_world tf2_dir = true /\
    w_isfile example_world (tf2_dir ++ "/hl2_linux") = true /\
    (forall p, Copy2 "/pack/tf/maps/x.bsp"
                     "/lib/steamapps/common/Team Fortress 2/tf/maps/x.bsp"
               = Makedirs p ->
               exists rel, p = client_dir tf2_dir ++ sep ++ rel) /\
    (forall src dst,
        Copy2 "/pack/tf/maps/x.bsp"
              "/lib/steamapps/common/Team Fortress 2/tf/maps/x.bsp"
        = Copy2 src dst ->
        exists rel,
          src = asset_pack_dir (w_getcwd example_world) ++ sep ++ rel /\
          dst = client_dir tf2_dir ++ sep ++ rel).
Proof.
  apply (main_writes_into_the_game
           example_world
           (Copy2 "/pack/tf/maps/x.bsp"
                  "/lib/steamapps/common/Team Fortress 2/tf/maps/x.bsp")).
  vm_compute. repeat (try (left; reflexivity); right).
Defined.

(** X29: the message of success is printed only in a run of [main]
    that ends without exception, after the game was found; by then
    every walked file whose name ends neither in [.nav] nor in [.pop],
    in the pack's own directory or in one below it under a relative
    path that does not hold the path of the pack again, was copied from
    the path under which it was walked (with the separator twice for a
    file of the pack's own directory) to its relative path below the
    folder [tf] of the game.  A run that ends in an exception never
    prints the message. *)
Theorem success_means_all_copied w :
  In (Say Successful) (fst (main w)) ->
  snd (main w) = Ok tt /\
  exists tf2_dir,
    In (Say (FoundGame tf2_dir)) (fst (main w)) /\
    forall current_dir rel file,
      below (w_getcwd w) current_dir rel ->
      walked (w_walk w) (asset_pack_dir (w_getcwd w)) current_dir file ->
      exists src,
        In (Do (Copy2 src (client_dir tf2_dir ++ sep
                           ++ (rel ++ sep ++ file))))
           (fst (main w)) /\
        (src = current_dir ++ sep ++ file \/
         current_dir = asset_pack_dir (w_getcwd w) /\
         src = current_dir ++ sep ++ (sep ++ file)).
Proof.
  apply (main_copying
           w (fun r => In (Say Successful) (fst r) ->
                       snd r = Ok tt /\
                       exists tf2_dir,
                         In (Say (FoundGame tf2_dir)) (fst r) /\
                         forall current_dir rel file,
                           below (w_getcwd w) current_dir rel ->
                           walked (w_walk w) (asset_pack_dir (w_getcwd w))
                                  current_dir file ->
                           exists src,
                             In (Do (Copy2 src (client_dir tf2_dir ++ _)))
                                (fst r) /\ _)).
  - intros r _ Hq H. now elim (Hq _ H).
  - intros uid library_vdf tf2_dir Hu H0 Ht.
    destruct (copy_asset_pack_files _ _ _ tf2_dir) as [events exc] eqn:Ec.
    destruct exc as [e|]; cbn [fst snd]; intros H.
    + destruct H as [[=]|H]. apply in_map_iff in H.
      now destruct H as (? & [=] & _).
    + split; [reflexivity|]. exists tf2_dir. split; [now left|].
      intros current_dir rel file Hb Hw.
      exists (asset_pack_dir (w_getcwd w) ++ sep ++ (rel ++ sep ++ file)).
      split; [|now apply below_source].
      right. apply in_or_app. left. apply in_map.
      replace events
        with (fst (copy_asset_pack_files (w_getcwd w) (w_walk w)
                                         (w_getsize w) tf2_dir))
        by now rewrite Ec.
      apply (walked_below_copied (w_getcwd w) (w_walk w) (w_getsize w)
                                 tf2_dir current_dir); auto.
      now rewrite Ec.
Qed.

Lemma success_witness :
  snd (main example_world) = Ok tt /\
  exists tf2_dir,
    In (Say (FoundGame tf2_dir)) (fst (main example_world)) /\
    forall current_dir rel file,
      below (w_getcwd example_world) current_dir rel ->
      walked (w_walk example_world)
             (asset_pack_dir (w_getcwd example_world)) current_dir file ->
      exists src,
        In (Do (Copy2 src (client_dir tf2_dir ++ sep
                           ++ (rel ++ sep ++ file))))
           (fst (main example_world)) /\
        (src = current_dir ++ sep ++ file \/
         current_dir = asset_pack_dir (w_getcwd example_world) /\
         src = current_dir ++ sep ++ (sep ++ file)).
Proof.
  apply (success_means_all_copied example_world).
  vm_compute. repeat (try (left; reflexivity); right).
Defined.

Lemma search_never_fails_witness :
  loop None [dq "k" ++ " " ++ String DQ "v"; "w" ++ String DQ EmptyString]
       0 None []
  <> Raise AttributeError.
Proof.
  apply (search_never_fails
           None [dq "k" ++ " " ++ String DQ "v"; "w" ++ String DQ EmptyString]
           0 None []).
Defined.
